(** * bit.c: a fixed-word-size bitmap and its forward scanners

    Shallow embedding of [src/bit.c] and verification of its sizing macros,
    bit accessor, bulk initialisers and the two word-parallel scanners
    [find_next_bit] / [find_next_zero_bit].

    Data model.  The C code runs on [unsigned long] words and [size_t]
    indices.  We fix the LP64 data model (both are 64 bits wide): a word or an
    index is a [Z] in [0, 2^64) and every arithmetic operation of the source
    is followed by its wrap-around, written [wrap].  The storage a
    [unsigned long *bitmap] points to is a [list Z]; an access outside of it
    is undefined behaviour in C and yields [None] here. *)

From Stdlib Require Import ZArith Lia Bool.
From stdpp Require Import base option list.

Local Open Scope Z_scope.

(** ** Machine constants *)

(* #define BITS_PER_BYTE 8 *)
Definition BITS_PER_BYTE : Z := 8.

(* sizeof(unsigned long) under LP64 *)
Definition SIZEOF_LONG : Z := 8.

(* #define BITS_PER_LONG (sizeof(unsigned long) * BITS_PER_BYTE) *)
Definition BITS_PER_LONG : Z := SIZEOF_LONG * BITS_PER_BYTE.

(* unsigned wrap-around of [unsigned long] and [size_t] arithmetic *)
Definition wrap (x : Z) : Z := x mod 2 ^ BITS_PER_LONG.

(* ~0UL *)
Definition ULONG_MAX : Z := 2 ^ BITS_PER_LONG - 1.

(* the largest value of size_t *)
Definition SIZE_MAX : Z := 2 ^ BITS_PER_LONG - 1.

(* #define MAX_TEST_BITS 400 *)
Definition MAX_TEST_BITS : Z := 400.

(** The largest bit count for which [bits + BITS_PER_LONG - 1] still fits
    in a [size_t]; this is the documented precondition of
    [BITOPS_DIV_CEIL] ("a type which can store denominator + numerator
    without overflow"). *)
Definition MAX_BITS : Z := SIZE_MAX - (BITS_PER_LONG - 1).

(** A value an [unsigned long] can hold. *)
Definition is_word (w : Z) : Prop := 0 <= w < 2 ^ BITS_PER_LONG.

(** A storage all of whose words are [unsigned long] values. *)
Definition is_bitmap (bitmap : list Z) : Prop := Forall is_word bitmap.

(** The storage has room for [bits] bits. *)
Definition holds (bitmap : list Z) (bits : Z) : Prop :=
  bits <= BITS_PER_LONG * Z.of_nat (length bitmap).

(** ** Memory accesses *)

(* bitmap[i] as an rvalue; None when i is outside of the storage *)
Definition load (bitmap : list Z) (i : Z) : option Z :=
  if (0 <=? i) && (i <? Z.of_nat (length bitmap))
  then bitmap !! Z.to_nat i
  else None.

(* bitmap[i] = v; None when i is outside of the storage *)
Definition store (bitmap : list Z) (i v : Z) : option (list Z) :=
  if (0 <=? i) && (i <? Z.of_nat (length bitmap))
  then Some (<[Z.to_nat i := v]> bitmap)
  else None.

(* the unsigned long all of whose bytes are (unsigned char) c *)
Definition byte_fill (c : Z) : Z :=
  (c mod 2 ^ BITS_PER_BYTE) * ((2 ^ BITS_PER_LONG - 1) / (2 ^ BITS_PER_BYTE - 1)).

(* memset(bitmap, c, n), for n a multiple of sizeof(unsigned long) as at
   both call sites: the first n / sizeof(unsigned long) words are
   overwritten; None when they are not all inside the storage *)
Definition memset (bitmap : list Z) (c n : Z) : option (list Z) :=
  let words := n / SIZEOF_LONG in
  if words <=? Z.of_nat (length bitmap)
  then Some (replicate (Z.to_nat words) (byte_fill c) ++ drop (Z.to_nat words) bitmap)
  else None.

(** ** Sizing and masking macros *)

(* #define BITOPS_DIV_CEIL(numerator, denominator) \
       (((numerator) + (denominator) -1) / (denominator)) *)
Definition BITOPS_DIV_CEIL (numerator denominator : Z) : Z :=
  wrap (wrap (numerator + denominator) - 1) / denominator.

(* #define BITS_TO_LONGS(bits) BITOPS_DIV_CEIL(bits, BITS_PER_LONG) *)
Definition BITS_TO_LONGS (bits : Z) : Z := BITOPS_DIV_CEIL bits BITS_PER_LONG.

(* #define BITMAP_FIRST_WORD_MASK(start) (~0UL << ((start) % BITS_PER_LONG)) *)
Definition BITMAP_FIRST_WORD_MASK (start : Z) : Z :=
  wrap (Z.shiftl ULONG_MAX (start mod BITS_PER_LONG)).

(* #define BITMAP_LAST_WORD_MASK(bits) (~0UL >> (-(bits) % BITS_PER_LONG)) *)
Definition BITMAP_LAST_WORD_MASK (bits : Z) : Z :=
  Z.shiftr ULONG_MAX (wrap (- bits) mod BITS_PER_LONG).

(* ~x on an unsigned long *)
Definition not_ul (x : Z) : Z := wrap (Z.lnot x).

(** ** bitops_ffs *)

(* number of trailing zero bits of a positive number *)
Fixpoint ctz_pos (p : positive) : Z :=
  match p with
  | xO q => ctz_pos q + 1
  | _ => 0
  end.

(* static inline size_t bitops_ffs(unsigned long x) { return __builtin_ffsl(x); }
   one plus the index of the least significant set bit; zero when x is zero *)
Definition bitops_ffs (x : Z) : Z :=
  match x with
  | Zpos p => ctz_pos p + 1
  | _ => 0
  end.

(** ** test_bit *)

Definition test_bit (bit : Z) (bitmap : list Z) : option bool :=
  let l := bit / BITS_PER_LONG in
  let b := bit mod BITS_PER_LONG in
  w ← load bitmap l;
  Some (negb (Z.land w (wrap (Z.shiftl 1 b)) =? 0)).

(** ** find_next_zero_bit *)

(* for (size_t i = first_long + 1; !t && i < l; i++) {
       long_lower += BITS_PER_LONG; t = bitmap[i]; t ^= ~0UL; }
   The loop hands back the final (long_lower, t).  [fuel] bounds the number
   of iterations; the callers pass the number of storage words, after which
   any further read is outside of the storage anyway. *)
Fixpoint find_next_zero_bit_loop (fuel : nat) (bitmap : list Z)
    (l i long_lower t : Z) : option (Z * Z) :=
  if (t =? 0) && (i <? l) then
    match fuel with
    | O => None
    | S fuel' =>
        let long_lower := wrap (long_lower + BITS_PER_LONG) in
        t ← load bitmap i;
        let t := Z.lxor t ULONG_MAX in
        find_next_zero_bit_loop fuel' bitmap l (wrap (i + 1)) long_lower t
    end
  else Some (long_lower, t).

Definition find_next_zero_bit (bitmap : list Z) (bits start : Z) : option Z :=
  let l := BITS_TO_LONGS bits in
  let first_long := start / BITS_PER_LONG in
  let long_lower := wrap (start - start mod BITS_PER_LONG) in
  if bits <=? start then Some bits
  else
    w ← load bitmap first_long;
    let t := Z.lor w (not_ul (BITMAP_FIRST_WORD_MASK start)) in
    let t := Z.lxor t ULONG_MAX in
    '(long_lower, t) ← find_next_zero_bit_loop (length bitmap) bitmap l
                          (wrap (first_long + 1)) long_lower t;
    if t =? 0 then Some bits
    else
      let pos := wrap (wrap (long_lower + bitops_ffs t) - 1) in
      if bits <=? pos then Some bits else Some pos.

(** ** find_next: the bit-by-bit reference scanner *)

(* for (size_t i = start; i < bits; i++) if (test_bit(i, bitmap)) return i;
   return bits; *)
Fixpoint find_next_loop (fuel : nat) (bitmap : list Z) (bits i : Z) : option Z :=
  if i <? bits then
    match fuel with
    | O => None
    | S fuel' =>
        b ← test_bit i bitmap;
        if b : bool then Some i else find_next_loop fuel' bitmap bits (wrap (i + 1))
    end
  else Some bits.

Definition find_next (bitmap : list Z) (bits start : Z) : option Z :=
  find_next_loop (Z.to_nat BITS_PER_LONG * length bitmap) bitmap bits start.

(** ** find_next_bit *)

(* for (size_t i = first_long + 1; !t && i < l; i++) {
       long_lower += BITS_PER_LONG; t = bitmap[i]; } *)
Fixpoint find_next_bit_loop (fuel : nat) (bitmap : list Z)
    (l i long_lower t : Z) : option (Z * Z) :=
  if (t =? 0) && (i <? l) then
    match fuel with
    | O => None
    | S fuel' =>
        let long_lower := wrap (long_lower + BITS_PER_LONG) in
        t ← load bitmap i;
        find_next_bit_loop fuel' bitmap l (wrap (i + 1)) long_lower t
    end
  else Some (long_lower, t).

Definition find_next_bit (bitmap : list Z) (bits start : Z) : option Z :=
  let l := BITS_TO_LONGS bits in
  let first_long := start / BITS_PER_LONG in
  let long_lower := wrap (start - start mod BITS_PER_LONG) in
  if bits <=? start then Some bits
  else
    w ← load bitmap first_long;
    let t := Z.land w (BITMAP_FIRST_WORD_MASK start) in
    '(long_lower, t) ← find_next_bit_loop (length bitmap) bitmap l
                          (wrap (first_long + 1)) long_lower t;
    if t =? 0 then Some bits
    else
      let pos := wrap (wrap (long_lower + bitops_ffs t) - 1) in
      if bits <=? pos then Some bits else Some pos.

(** ** bitmap_fill and bitmap_zero *)

(* size_t l = BITS_TO_LONGS(bits);
   if (l > 1) memset(bitmap, 0xff, (l - 1) * sizeof(unsigned long));
   bitmap[l - 1] = BITMAP_LAST_WORD_MASK(bits); *)
Definition bitmap_fill (bitmap : list Z) (bits : Z) : option (list Z) :=
  let l := BITS_TO_LONGS bits in
  bitmap ← (if 1 <? l
            then memset bitmap 255 (wrap (wrap (l - 1) * SIZEOF_LONG))
            else Some bitmap);
  store bitmap (wrap (l - 1)) (BITMAP_LAST_WORD_MASK bits).

(* memset(bitmap, 0, BITS_TO_LONGS(bits) * sizeof(unsigned long)); *)
Definition bitmap_zero (bitmap : list Z) (bits : Z) : option (list Z) :=
  memset bitmap 0 (wrap (BITS_TO_LONGS bits * SIZEOF_LONG)).

(** ** check_bits and main: the self-test

    [assert] either lets the run go on or aborts it. *)
Inductive outcome (A : Type) : Type :=
  | Returned (a : A)
  | AssertFailed.
Arguments Returned {A} a.
Arguments AssertFailed {A}.

(* size_t i = 0;
   while (i < bits) {
       size_t r1 = find_next(bitmap, bits, i);
       size_t r2 = find_next_bit(bitmap, bits, i);
       assert(r1 == r2);
       i = r1 + 1;
   } *)
Fixpoint check_bits_loop (fuel : nat) (bitmap : list Z) (bits i : Z)
    : option (outcome unit) :=
  if i <? bits then
    match fuel with
    | O => None
    | S fuel' =>
        r1 ← find_next bitmap bits i;
        r2 ← find_next_bit bitmap bits i;
        if r1 =? r2
        then check_bits_loop fuel' bitmap bits (wrap (r1 + 1))
        else Some AssertFailed
    end
  else Some (Returned tt).

(* every turn of the loop moves i past a bit of the storage *)
Definition check_bits (bitmap : list Z) (bits : Z) : option (outcome unit) :=
  check_bits_loop (Z.to_nat BITS_PER_LONG * length bitmap) bitmap bits 0.

(* static DECLARE_BITMAP(test, MAX_TEST_BITS); a static array starts zeroed *)
Definition test : list Z := replicate (Z.to_nat (BITS_TO_LONGS MAX_TEST_BITS)) 0.

(* for (int i = 1; i < MAX_TEST_BITS; i++) {
       bitmap_fill(test, i);
       assert(find_next_bit(test, i, 0) == 0);
       bitmap_zero(test, i);
       assert(find_next_bit(test, i, 0) == i);
   }
   return 0;
   [i] is an int below 400: i++ does not overflow and the conversion to
   size_t at the calls keeps its value. *)
Fixpoint main_loop (fuel : nat) (test : list Z) (i : Z) : option (outcome Z) :=
  if i <? MAX_TEST_BITS then
    match fuel with
    | O => None
    | S fuel' =>
        test ← bitmap_fill test i;
        r ← find_next_bit test i 0;
        if r =? 0 then
          test ← bitmap_zero test i;
          r ← find_next_bit test i 0;
          if r =? i then main_loop fuel' test (i + 1)
          else Some AssertFailed
        else Some AssertFailed
    end
  else Some (Returned 0).

Definition main : option (outcome Z) :=
  main_loop (Z.to_nat MAX_TEST_BITS) test 1.

(** ** The contract of a forward scan

    [next_match v bitmap bits s r]: [r] is the smallest index [i] with
    [s <= i < bits] whose bit reads [v], or [bits] when there is none. *)
Definition next_match (v : bool) (bitmap : list Z) (bits s r : Z) : Prop :=
  (s <= r < bits /\ test_bit r bitmap = Some v /\
     forall i, s <= i < r -> test_bit i bitmap = Some (negb v))
  \/
  (r = bits /\ forall i, s <= i < bits -> test_bit i bitmap = Some (negb v)).

(** What a scan that only looks below [limit] yields: the smallest index
    in [s, limit) whose bit reads [v], or [bits] when there is none. *)
Definition scanned (v : bool) (bitmap : list Z) (bits limit s r : Z) : Prop :=
  (s <= r < limit /\ test_bit r bitmap = Some v /\
     forall i, s <= i < r -> test_bit i bitmap = Some (negb v))
  \/
  (r = bits /\ forall i, s <= i < limit -> test_bit i bitmap = Some (negb v)).

(** The scanners look at the word of [start] and at the words below
    [BITS_TO_LONGS bits], and never at an index from [bits] on. *)
Definition scan_limit (bits start : Z) : Z :=
  Z.min bits
    (BITS_PER_LONG * Z.max (BITS_TO_LONGS bits) (start / BITS_PER_LONG + 1)).

(** The storage with every word inverted. *)
Definition complement (bitmap : list Z) : list Z :=
  (fun w => Z.lxor w ULONG_MAX) <$> bitmap.

(** The number of words the specification asks [words_for] to return: the
    ceiling of [bits / W], in unbounded integers (the specification's own
    overflow-safe form [(bits - 1) / W + 1]). *)
Definition words_for_spec (bits : Z) : Z := (bits - 1) / BITS_PER_LONG + 1.

(** ** Proof automation *)

(* unfold the machine constants down to numerals, for lia *)
Ltac machine :=
  unfold MAX_BITS, SIZE_MAX, ULONG_MAX, is_word, holds, wrap in *;
  change (2 ^ BITS_PER_LONG) with 18446744073709551616 in *;
  change BITS_PER_LONG with 64 in *;
  change SIZEOF_LONG with 8 in *.

(* side conditions at concrete inputs, by evaluation *)
Ltac closed_side :=
  lazymatch goal with
  | |- is_bitmap _ => repeat constructor; machine; lia
  | |- holds _ _ => unfold holds; vm_compute; discriminate
  | |- _ <= _ <= _ => split; vm_compute; discriminate
  | |- _ <= _ < _ => split; vm_compute; [discriminate | reflexivity]
  | |- _ <= _ => vm_compute; discriminate
  | |- _ < _ => vm_compute; reflexivity
  | |- _ = Some _ => vm_compute; reflexivity
  end.

(** ** Concrete runs *)

Example ex_words_400 : BITS_TO_LONGS MAX_TEST_BITS = 7.
Proof. reflexivity. Qed.

Example ex_fill_65 : bitmap_fill [0; 0] 65 = Some [ULONG_MAX; 1].
Proof. vm_compute. reflexivity. Qed.

Example ex_scan_65 :
  find_next_bit [ULONG_MAX; 1] 65 0 = Some 0 /\
  find_next_bit [0; 0] 65 0 = Some 65 /\
  find_next_bit [0; 1] 65 1 = Some 64 /\
  find_next_bit [0; 1] 65 65 = Some 65 /\
  find_next_zero_bit [ULONG_MAX; 3] 66 3 = Some 66 /\
  find_next_zero_bit [ULONG_MAX; 1] 66 3 = Some 65 /\
  find_next [0; 1] 65 1 = Some 64.
Proof. vm_compute. repeat split. Qed.

(** * Arithmetic of the machine model *)

Lemma wrap_small x : is_word x -> wrap x = x.
Proof. intros H. unfold wrap. apply Z.mod_small. exact H. Qed.

Lemma wrap_is_word x : is_word (wrap x).
Proof. unfold is_word, wrap. apply Z.mod_pos_bound. machine. lia. Qed.

Lemma ULONG_MAX_ones : ULONG_MAX = Z.ones BITS_PER_LONG.
Proof. reflexivity. Qed.

(** [BITS_TO_LONGS] is the ceiling division as long as the addition does
    not wrap. *)
Lemma BITS_TO_LONGS_no_overflow bits :
  0 <= bits <= MAX_BITS -> BITS_TO_LONGS bits = (bits + 63) / 64.
Proof.
  intros H. unfold BITS_TO_LONGS, BITOPS_DIV_CEIL. machine.
  rewrite Zminus_mod_idemp_l.
  rewrite Z.mod_small by lia. f_equal. lia.
Qed.

Lemma BITS_TO_LONGS_bounds bits :
  1 <= bits <= MAX_BITS ->
  64 * (BITS_TO_LONGS bits - 1) < bits <= 64 * BITS_TO_LONGS bits.
Proof.
  intros H. rewrite BITS_TO_LONGS_no_overflow by lia.
  pose proof (Z.div_mod (bits + 63) 64 ltac:(lia)).
  pose proof (Z.mod_pos_bound (bits + 63) 64 ltac:(lia)). lia.
Qed.

(** Whatever [bits] is, the macro never yields more words than the true
    ceiling, and what it yields times the word size fits a [size_t]. *)
Lemma BITS_TO_LONGS_range bits :
  0 <= bits -> 0 <= BITS_TO_LONGS bits /\ 64 * BITS_TO_LONGS bits <= bits + 63
               /\ 64 * BITS_TO_LONGS bits < 2 ^ 64.
Proof.
  intros H. unfold BITS_TO_LONGS, BITOPS_DIV_CEIL. machine.
  rewrite Zminus_mod_idemp_l.
  set (x := (bits + 64 - 1) mod 18446744073709551616).
  assert (Hx : 0 <= x < 18446744073709551616) by (apply Z.mod_pos_bound; lia).
  assert (Hle : x <= bits + 63).
  { subst x. pose proof (Z.mod_le (bits + 64 - 1) 18446744073709551616
                           ltac:(lia) ltac:(lia)). lia. }
  pose proof (Z.div_mod x 64 ltac:(lia)).
  pose proof (Z.mod_pos_bound x 64 ltac:(lia)).
  lia.
Qed.

Lemma holds_BITS_TO_LONGS (bitmap : list Z) bits :
  1 <= bits <= MAX_BITS ->
  BITS_TO_LONGS bits <= Z.of_nat (length bitmap) -> holds bitmap bits.
Proof.
  intros H E. pose proof (BITS_TO_LONGS_bounds bits H). machine. lia.
Qed.

Lemma MAX_TEST_BITS_le : MAX_TEST_BITS <= MAX_BITS.
Proof. vm_compute. discriminate. Qed.

(** * Bits of words and masks *)

Lemma word_bits_high w j : is_word w -> 64 <= j -> Z.testbit w j = false.
Proof.
  intros Hw Hj. rewrite <- (wrap_small w Hw). unfold wrap.
  apply Z.mod_pow2_bits_high. machine. lia.
Qed.

Lemma wrap_bits x j : Z.testbit (wrap x) j = (j <? 64) && Z.testbit x j.
Proof.
  unfold wrap. destruct (Z.ltb_spec j 64) as [H|H]; cbn [andb].
  - destruct (Z.neg_nonneg_cases j) as [Hn|Hn].
    + now rewrite !Z.testbit_neg_r.
    + apply Z.mod_pow2_bits_low. machine. lia.
  - apply Z.mod_pow2_bits_high. machine. lia.
Qed.

Lemma ULONG_MAX_bits j : Z.testbit ULONG_MAX j = (0 <=? j) && (j <? 64).
Proof.
  rewrite ULONG_MAX_ones.
  destruct (Z.leb_spec 0 j) as [H|H]; cbn [andb].
  - destruct (Z.ltb_spec j 64) as [H'|H'].
    + apply Z.ones_spec_low. machine. lia.
    + apply Z.ones_spec_high. machine. lia.
  - now apply Z.testbit_neg_r.
Qed.

Lemma FIRST_WORD_MASK_bits start j :
  0 <= j ->
  Z.testbit (BITMAP_FIRST_WORD_MASK start) j
  = (start mod BITS_PER_LONG <=? j) && (j <? 64).
Proof.
  intros Hj. unfold BITMAP_FIRST_WORD_MASK.
  pose proof (Z.mod_pos_bound start BITS_PER_LONG ltac:(machine; lia)) as Hk.
  rewrite wrap_bits, Z.shiftl_spec, ULONG_MAX_bits by lia.
  destruct (Z.ltb_spec j 64), (Z.leb_spec (start mod BITS_PER_LONG) j),
    (Z.leb_spec 0 (j - start mod BITS_PER_LONG)),
    (Z.ltb_spec (j - start mod BITS_PER_LONG) 64);
    cbn [andb]; try reflexivity; machine; lia.
Qed.

Lemma LAST_WORD_MASK_bits bits j :
  0 <= j ->
  Z.testbit (BITMAP_LAST_WORD_MASK bits) j
  = (j + wrap (- bits) mod BITS_PER_LONG <? 64).
Proof.
  intros Hj. unfold BITMAP_LAST_WORD_MASK.
  pose proof (Z.mod_pos_bound (wrap (- bits)) BITS_PER_LONG ltac:(machine; lia)) as Hk.
  rewrite Z.shiftr_spec, ULONG_MAX_bits by lia.
  destruct (Z.leb_spec 0 (j + wrap (- bits) mod BITS_PER_LONG)); [reflexivity | lia].
Qed.

(** The shift count of [BITMAP_LAST_WORD_MASK]: [-(bits) % BITS_PER_LONG]
    in unsigned arithmetic is the distance from [bits] up to the next
    multiple of the word size. *)
Lemma neg_mod_word bits :
  wrap (- bits) mod BITS_PER_LONG
  = if bits mod BITS_PER_LONG =? 0 then 0 else 64 - bits mod BITS_PER_LONG.
Proof.
  machine.
  pose proof (Z.div_mod (- bits) 18446744073709551616 ltac:(lia)) as H1.
  pose proof (Z.mod_pos_bound (- bits) 18446744073709551616 ltac:(lia)) as H2.
  set (m := (- bits) mod 18446744073709551616) in *.
  pose proof (Z.div_mod m 64 ltac:(lia)) as H3.
  pose proof (Z.mod_pos_bound m 64 ltac:(lia)) as H4.
  pose proof (Z.div_mod bits 64 ltac:(lia)) as H5.
  pose proof (Z.mod_pos_bound bits 64 ltac:(lia)) as H6.
  destruct (Z.eqb_spec (bits mod 64) 0); lia.
Qed.

(** * bitops_ffs *)

Lemma ctz_pos_spec p :
  0 <= ctz_pos p /\ Z.testbit (Z.pos p) (ctz_pos p) = true /\
  forall j, 0 <= j < ctz_pos p -> Z.testbit (Z.pos p) j = false.
Proof.
  induction p as [q _ | q (Hc & Ht & Hlow) | ]; cbn [ctz_pos].
  - split; [lia|]. split; [reflexivity | intros; lia].
  - split; [lia|]. split.
    + change (Z.pos q~0) with (2 * Z.pos q).
      replace (ctz_pos q + 1) with (Z.succ (ctz_pos q)) by lia.
      rewrite Z.double_bits_succ. exact Ht.
    + intros j Hj. change (Z.pos q~0) with (2 * Z.pos q).
      destruct (Z.eq_dec j 0) as [->|Hne]; [apply Z.testbit_even_0|].
      replace j with (Z.succ (j - 1)) by lia.
      rewrite Z.double_bits_succ. apply Hlow. lia.
  - split; [lia|]. split; [reflexivity | intros; lia].
Qed.

(** On a non-zero word, [bitops_ffs] is one plus the index of the lowest
    set bit. *)
Lemma bitops_ffs_spec t :
  0 < t ->
  0 <= bitops_ffs t - 1 /\ Z.testbit t (bitops_ffs t - 1) = true /\
  forall j, 0 <= j < bitops_ffs t - 1 -> Z.testbit t j = false.
Proof.
  intros Ht. destruct t as [|p|p]; try lia. cbn [bitops_ffs].
  replace (ctz_pos p + 1 - 1) with (ctz_pos p) by lia. apply ctz_pos_spec.
Qed.

(** * Memory accesses and test_bit *)

Lemma load_Some (bitmap : list Z) i :
  0 <= i < Z.of_nat (length bitmap) -> exists w, load bitmap i = Some w.
Proof.
  intros H. unfold load.
  destruct (Z.leb_spec 0 i); [|lia].
  destruct (Z.ltb_spec i (Z.of_nat (length bitmap))); [|lia]. cbn [andb].
  apply lookup_lt_is_Some_2. lia.
Qed.

Lemma load_inv (bitmap : list Z) i w :
  load bitmap i = Some w ->
  0 <= i < Z.of_nat (length bitmap) /\ bitmap !! Z.to_nat i = Some w.
Proof.
  unfold load. destruct (Z.leb_spec 0 i), (Z.ltb_spec i (Z.of_nat (length bitmap)));
    cbn [andb]; intros Hl; try discriminate. split; [lia | exact Hl].
Qed.

Lemma load_is_word (bitmap : list Z) i w :
  is_bitmap bitmap -> load bitmap i = Some w -> is_word w.
Proof.
  intros HB H. apply load_inv in H as [_ H].
  unfold is_bitmap in HB. rewrite Forall_lookup in HB. exact (HB _ _ H).
Qed.

Lemma land_pow2_eqb w b :
  0 <= b -> (Z.land w (2 ^ b) =? 0) = negb (Z.testbit w b).
Proof.
  intros Hb. destruct (Z.testbit w b) eqn:E; cbn [negb].
  - apply Z.eqb_neq. intros H.
    assert (Z.testbit (Z.land w (2 ^ b)) b = true)
      by (rewrite Z.land_spec, E, Z.pow2_bits_true by lia; reflexivity).
    rewrite H, Z.bits_0 in H0. discriminate.
  - apply Z.eqb_eq, Z.bits_inj'. intros j Hj.
    rewrite Z.land_spec, Z.bits_0, Z.pow2_bits_eqb by lia.
    destruct (Z.eqb_spec b j) as [->|]; [rewrite E; reflexivity | apply andb_false_r].
Qed.

(** [test_bit] reads bit [bit mod 64] of word [bit / 64]. *)
Lemma test_bit_load (bitmap : list Z) bit w :
  load bitmap (bit / BITS_PER_LONG) = Some w ->
  test_bit bit bitmap = Some (Z.testbit w (bit mod BITS_PER_LONG)).
Proof.
  intros H. unfold test_bit. rewrite H. cbn.
  pose proof (Z.mod_pos_bound bit BITS_PER_LONG ltac:(machine; lia)) as Hb.
  rewrite Z.shiftl_1_l, wrap_small.
  - rewrite land_pow2_eqb, negb_involutive by lia. reflexivity.
  - unfold is_word. split; [apply Z.pow_nonneg; lia|].
    apply Z.pow_lt_mono_r; machine; lia.
Qed.

(** * The word loop of find_next_bit

    Started at word [i] with the candidate [t] of word [i - 1], the loop
    stops at some word [j >= i - 1] holding the candidate [t'] of word [j]:
    every word it skipped was zero, and it only stops on a zero candidate
    when word [j] is the last of the [l] words. *)
Lemma find_next_bit_loop_spec (bitmap : list Z) l fuel :
  64 * l <= 2 ^ 64 -> l <= Z.of_nat (length bitmap) ->
  forall i t,
    1 <= i -> Z.of_nat (length bitmap) - i <= Z.of_nat fuel ->
    exists j t',
      find_next_bit_loop fuel bitmap l i (64 * (i - 1)) t = Some (64 * j, t') /\
      i - 1 <= j /\
      (t' <> 0 \/ l <= j + 1) /\
      (j = i - 1 -> t' = t) /\
      (i <= j -> t = 0 /\ load bitmap j = Some t' /\ j < l) /\
      (forall k, i <= k < j -> load bitmap k = Some 0).
Proof.
  intros Hl Hlen. induction fuel as [|fuel IH]; intros i t Hi Hfuel; cbn [find_next_bit_loop].
  - destruct (Z.eqb_spec t 0) as [Et|Et], (Z.ltb_spec i l) as [Lt|Lt]; cbn [andb];
      try lia; exists (i - 1), t; repeat split; try tauto; lia.
  - destruct (Z.eqb_spec t 0) as [Et|Et], (Z.ltb_spec i l) as [Lt|Lt]; cbn [andb];
      try (exists (i - 1), t; repeat split; try tauto; lia).
    destruct (load_Some bitmap i ltac:(lia)) as [w Hw]. rewrite Hw. cbn.
    replace (wrap (64 * (i - 1) + BITS_PER_LONG)) with (64 * (i + 1 - 1))
      by (symmetry; rewrite wrap_small; machine; lia).
    rewrite (wrap_small (i + 1)) by (machine; lia).
    destruct (IH (i + 1) w ltac:(lia) ltac:(lia))
      as (j & t' & Hrun & Hj & Hstop & Hsame & Hlater & Hskip).
    exists j, t'. split; [exact Hrun|]. split; [lia|]. split; [exact Hstop|].
    split; [intros; lia|]. split.
    + intros _. split; [exact Et|].
      destruct (Z.eq_dec j i) as [->|Hne].
      * rewrite (Hsame ltac:(lia)). split; [exact Hw | exact Lt].
      * destruct (Hlater ltac:(lia)) as (_ & Hld & Hjl). split; assumption.
    + intros k Hk. destruct (Z.eq_dec k i) as [->|Hne].
      * destruct (Hlater ltac:(lia)) as (-> & _). exact Hw.
      * apply Hskip. lia.
Qed.

(** More fuel than the storage has words changes nothing: a run that
    exhausts [length bitmap] iterations is about to read out of bounds. *)
Lemma find_next_bit_loop_fuel (bitmap : list Z) l fuel :
  Z.of_nat (length bitmap) < 2 ^ 64 ->
  forall i ll t,
    0 <= i -> Z.of_nat (length bitmap) - i <= Z.of_nat fuel ->
    find_next_bit_loop (S fuel) bitmap l i ll t = find_next_bit_loop fuel bitmap l i ll t.
Proof.
  intros Hlen. induction fuel as [|fuel IH]; intros i ll t Hi Hfuel.
  - cbn [find_next_bit_loop].
    destruct ((t =? 0) && (i <? l)); [|reflexivity].
    unfold load. destruct (Z.ltb_spec i (Z.of_nat (length bitmap))); [lia|].
    now rewrite andb_false_r.
  - change (find_next_bit_loop (S (S fuel)) bitmap l i ll t)
      with (if (t =? 0) && (i <? l)
            then w ← load bitmap i;
                 find_next_bit_loop (S fuel) bitmap l (wrap (i + 1))
                   (wrap (ll + BITS_PER_LONG)) w
            else Some (ll, t)).
    change (find_next_bit_loop (S fuel) bitmap l i ll t)
      with (if (t =? 0) && (i <? l)
            then w ← load bitmap i;
                 find_next_bit_loop fuel bitmap l (wrap (i + 1))
                   (wrap (ll + BITS_PER_LONG)) w
            else Some (ll, t)).
    destruct ((t =? 0) && (i <? l)); [|reflexivity].
    destruct (load bitmap i) as [w|] eqn:Hld; [|reflexivity]. cbn.
    apply load_inv in Hld as [Hr _].
    rewrite (wrap_small (i + 1)) by (machine; lia).
    apply IH; lia.
Qed.

(** * The first word and the loop of find_next_bit, in terms of bits *)

Lemma scan_words (bitmap : list Z) bits start :
  is_bitmap bitmap -> holds bitmap bits -> 0 <= start < bits -> bits <= SIZE_MAX ->
  exists w0 j t,
    load bitmap (start / BITS_PER_LONG) = Some w0 /\
    find_next_bit_loop (length bitmap) bitmap (BITS_TO_LONGS bits)
      (wrap (start / BITS_PER_LONG + 1)) (wrap (start - start mod BITS_PER_LONG))
      (Z.land w0 (BITMAP_FIRST_WORD_MASK start)) = Some (64 * j, t) /\
    start / 64 <= j /\ (j = start / 64 \/ j < BITS_TO_LONGS bits) /\
    (t <> 0 \/ BITS_TO_LONGS bits <= j + 1) /\
    0 <= t /\
    (forall x, start <= x -> x / 64 < j -> test_bit x bitmap = Some false) /\
    (forall x, start <= x -> x / 64 = j ->
               test_bit x bitmap = Some (Z.testbit t (x mod 64))) /\
    (forall p, 0 <= p -> Z.testbit t p = true -> p < 64 /\ start <= 64 * j + p).
Proof.
  intros HB Hh Hs Hbits.
  pose proof (BITS_TO_LONGS_range bits ltac:(lia)) as (Hl0 & Hl1 & Hl2).
  set (l := BITS_TO_LONGS bits) in *.
  assert (Hfirst : 0 <= start / 64 < Z.of_nat (length bitmap))
    by (machine; Z.div_mod_to_equations; lia).
  destruct (load_Some bitmap (start / 64) Hfirst) as [w0 Hw0].
  set (t0 := Z.land w0 (BITMAP_FIRST_WORD_MASK start)).
  assert (Ht0bits : forall p, 0 <= p ->
            Z.testbit t0 p = Z.testbit w0 p && ((start mod 64 <=? p) && (p <? 64))).
  { intros p Hp. unfold t0. rewrite Z.land_spec, FIRST_WORD_MASK_bits by lia.
    reflexivity. }
  assert (Ht0 : 0 <= t0).
  { unfold t0. apply Z.land_nonneg. right. apply wrap_is_word. }
  destruct (find_next_bit_loop_spec bitmap l (length bitmap)
              ltac:(lia) ltac:(machine; lia) (start / 64 + 1) t0 ltac:(lia) ltac:(lia))
    as (j & t & Hrun & Hj & Hstop & Hsame & Hlater & Hskip).
  exists w0, j, t. change BITS_PER_LONG with 64.
  split; [exact Hw0|]. split.
  { rewrite (wrap_small (start / 64 + 1))
      by (machine; Z.div_mod_to_equations; lia).
    replace (wrap (start - start mod 64)) with (64 * (start / 64 + 1 - 1));
      [exact Hrun|].
    rewrite wrap_small; machine; Z.div_mod_to_equations; lia. }
  split; [lia|].
  split; [destruct (Z.eq_dec j (start / 64)); [left; lia | right; apply Hlater; lia]|].
  split; [exact Hstop|].
  destruct (Z.eq_dec j (start / 64)) as [Ej|Ej].
  - (* the candidate is the masked first word *)
    rewrite (Hsame ltac:(lia)). split; [exact Ht0|].
    split; [intros; Z.div_mod_to_equations; lia|]. split.
    + intros x Hx Hxj. rewrite (test_bit_load bitmap x w0)
        by (change BITS_PER_LONG with 64; rewrite Hxj, Ej; exact Hw0).
      change BITS_PER_LONG with 64. f_equal.
      rewrite Ht0bits by (Z.div_mod_to_equations; lia).
      destruct (Z.leb_spec (start mod 64) (x mod 64)),
        (Z.ltb_spec (x mod 64) 64); cbn [andb];
        try (now rewrite andb_true_r); Z.div_mod_to_equations; lia.
    + intros p Hp Hbit. rewrite Ht0bits in Hbit by lia.
      apply andb_true_iff in Hbit as [_ Hbit].
      apply andb_true_iff in Hbit as [H1 H2].
      apply Z.leb_le in H1. apply Z.ltb_lt in H2.
      split; [lia | Z.div_mod_to_equations; lia].
  - (* the candidate is a later word, read as it is *)
    destruct (Hlater ltac:(lia)) as (Et0 & Hwj & Hjl).
    pose proof (load_is_word _ _ _ HB Hwj) as Hwt.
    split; [unfold is_word in Hwt; lia|]. split; [|split].
    + intros x Hx Hxj. destruct (Z.eq_dec (x / 64) (start / 64)) as [Ex|Ex].
      * rewrite (test_bit_load bitmap x w0)
          by (change BITS_PER_LONG with 64; rewrite Ex; exact Hw0).
        change BITS_PER_LONG with 64. f_equal.
        assert (Hz : Z.testbit t0 (x mod 64) = false) by (rewrite Et0; apply Z.bits_0).
        rewrite Ht0bits in Hz by (Z.div_mod_to_equations; lia).
        destruct (Z.leb_spec (start mod 64) (x mod 64)),
          (Z.ltb_spec (x mod 64) 64); cbn [andb] in Hz;
          try (now rewrite andb_true_r in Hz); Z.div_mod_to_equations; lia.
      * rewrite (test_bit_load bitmap x 0).
        -- now rewrite Z.bits_0.
        -- change BITS_PER_LONG with 64. apply Hskip.
           Z.div_mod_to_equations; lia.
    + intros x Hx Hxj. apply test_bit_load.
      change BITS_PER_LONG with 64. rewrite Hxj. exact Hwj.
    + intros p Hp Hbit. split.
      * destruct (Z.lt_ge_cases p 64) as [|Hge]; [assumption|].
        rewrite (word_bits_high t p Hwt Hge) in Hbit. discriminate.
      * Z.div_mod_to_equations; lia.
Qed.

(** * find_next_bit returns the first set bit below its scan limit *)

Lemma find_next_bit_scanned (bitmap : list Z) bits start :
  is_bitmap bitmap -> holds bitmap bits -> 0 <= start -> bits <= SIZE_MAX ->
  exists r, find_next_bit bitmap bits start = Some r /\
            scanned true bitmap bits (scan_limit bits start) start r.
Proof.
  intros HB Hh Hs Hbits. unfold find_next_bit.
  destruct (Z.leb_spec bits start) as [Hout|Hin].
  { exists bits. split; [reflexivity|]. right. split; [reflexivity|].
    intros i Hi. unfold scan_limit in Hi. lia. }
  destruct (scan_words bitmap bits start HB Hh ltac:(lia) Hbits)
    as (w0 & j & t & Hw0 & Hrun & Hj & Hjl & Hstop & Ht & Hbelow & Hword & Hcand).
  rewrite Hw0. cbn. rewrite Hrun. cbn.
  pose proof (BITS_TO_LONGS_range bits ltac:(lia)) as (Hl0 & Hl1 & Hl2).
  assert (Hlim : scan_limit bits start
                 = Z.min bits (64 * Z.max (BITS_TO_LONGS bits) (start / 64 + 1)))
    by reflexivity.
  assert (Hjmax : 64 * (j + 1) <= 2 ^ 64)
    by (machine; Z.div_mod_to_equations; lia).
  destruct (Z.eqb_spec t 0) as [Et|Et].
  { (* no candidate in any word *)
    exists bits. split; [reflexivity|]. right. split; [reflexivity|].
    intros x Hx. destruct Hstop as [|Hstop]; [contradiction|].
    destruct (Z.eq_dec (x / 64) j) as [Exj|Exj].
    - rewrite (Hword x ltac:(lia) Exj), Et, Z.bits_0. reflexivity.
    - apply Hbelow; [lia|]. Z.div_mod_to_equations; lia. }
  destruct (bitops_ffs_spec t ltac:(lia)) as (Hp & Hset & Hlow).
  set (p := bitops_ffs t - 1) in *.
  destruct (Hcand p Hp Hset) as [Hp64 Hstart].
  replace (wrap (wrap (64 * j + bitops_ffs t) - 1)) with (64 * j + p).
  2:{ unfold wrap. rewrite Zminus_mod_idemp_l. symmetry.
      subst p. replace (64 * j + bitops_ffs t - 1) with (64 * j + (bitops_ffs t - 1)) by lia.
      apply Z.mod_small. machine. lia. }
  assert (Hpos_div : (64 * j + p) / 64 = j) by (Z.div_mod_to_equations; lia).
  assert (Hpos_mod : (64 * j + p) mod 64 = p) by (Z.div_mod_to_equations; lia).
  assert (Hbefore : forall x, start <= x < 64 * j + p -> test_bit x bitmap = Some false).
  { intros x Hx. destruct (Z.eq_dec (x / 64) j) as [Exj|Exj].
    - rewrite (Hword x ltac:(lia) Exj). f_equal. apply Hlow.
      Z.div_mod_to_equations; lia.
    - apply Hbelow; [lia|]. Z.div_mod_to_equations; lia. }
  destruct (Z.leb_spec bits (64 * j + p)) as [Hpad|Hfound].
  - (* the candidate lies in the padding of the last word *)
    exists bits. split; [reflexivity|]. right. split; [reflexivity|].
    intros x Hx. apply Hbefore. lia.
  - exists (64 * j + p). split; [reflexivity|]. left. split; [|split].
    + rewrite Hlim. lia.
    + rewrite (Hword (64 * j + p) Hstart Hpos_div), Hpos_mod, Hset. reflexivity.
    + exact Hbefore.
Qed.

(** * find_next_zero_bit is find_next_bit on the inverted storage *)

Lemma length_complement bitmap : length (complement bitmap) = length bitmap.
Proof. unfold complement. apply length_fmap. Qed.

Lemma load_complement bitmap i :
  load (complement bitmap) i = (fun w => Z.lxor w ULONG_MAX) <$> load bitmap i.
Proof.
  unfold load. rewrite length_complement.
  destruct ((0 <=? i) && (i <? Z.of_nat (length bitmap))); [|reflexivity].
  unfold complement. apply list_lookup_fmap.
Qed.

Lemma lxor_ULONG_MAX_bits w j :
  0 <= j < 64 -> Z.testbit (Z.lxor w ULONG_MAX) j = negb (Z.testbit w j).
Proof.
  intros Hj. rewrite Z.lxor_spec, ULONG_MAX_bits.
  destruct (Z.leb_spec 0 j), (Z.ltb_spec j 64); try lia.
  cbn [andb]. apply xorb_true_r.
Qed.

Lemma lxor_ULONG_MAX_is_word w : is_word w -> is_word (Z.lxor w ULONG_MAX).
Proof.
  intros Hw. assert (E : Z.lxor w ULONG_MAX = wrap (Z.lxor w ULONG_MAX)).
  { apply Z.bits_inj'. intros j Hj. rewrite wrap_bits.
    destruct (Z.ltb_spec j 64); [reflexivity|]. cbn [andb].
    rewrite Z.lxor_spec, ULONG_MAX_bits, (word_bits_high w j Hw) by lia.
    destruct (Z.ltb_spec j 64); [lia|]. now rewrite andb_false_r. }
  rewrite E. apply wrap_is_word.
Qed.

Lemma is_bitmap_complement bitmap : is_bitmap bitmap -> is_bitmap (complement bitmap).
Proof.
  unfold is_bitmap, complement. intros H. apply Forall_fmap.
  eapply Forall_impl; [exact H|]. intros w Hw. now apply lxor_ULONG_MAX_is_word.
Qed.

Lemma holds_complement bitmap bits : holds bitmap bits -> holds (complement bitmap) bits.
Proof. unfold holds. now rewrite length_complement. Qed.

(** The first candidate of the clear-bit scan, [(w | ~mask) ^ ~0UL], keeps
    exactly the cleared bits of [w] that the mask selects. *)
Lemma first_zero_candidate w start :
  is_word w ->
  Z.lxor (Z.lor w (not_ul (BITMAP_FIRST_WORD_MASK start))) ULONG_MAX
  = Z.land (Z.lxor w ULONG_MAX) (BITMAP_FIRST_WORD_MASK start).
Proof.
  intros Hw. apply Z.bits_inj'. intros j Hj.
  rewrite Z.lxor_spec, Z.lor_spec, Z.land_spec, Z.lxor_spec. unfold not_ul.
  rewrite wrap_bits, Z.lnot_spec, ULONG_MAX_bits, FIRST_WORD_MASK_bits by lia.
  destruct (Z.leb_spec 0 j); [|lia].
  destruct (Z.ltb_spec j 64); cbn [andb].
  - destruct (Z.testbit w j), (start mod BITS_PER_LONG <=? j); reflexivity.
  - rewrite (word_bits_high w j Hw) by lia. now rewrite andb_false_r.
Qed.

Lemma find_next_zero_bit_loop_complement fuel bitmap l :
  forall i long_lower t,
    find_next_zero_bit_loop fuel bitmap l i long_lower t
    = find_next_bit_loop fuel (complement bitmap) l i long_lower t.
Proof.
  induction fuel as [|fuel IH]; intros i long_lower t;
    cbn [find_next_zero_bit_loop find_next_bit_loop];
    destruct ((t =? 0) && (i <? l)); try reflexivity.
  rewrite load_complement. destruct (load bitmap i) as [w|]; [|reflexivity].
  cbn. apply IH.
Qed.

Lemma find_next_zero_bit_complement bitmap bits start :
  is_bitmap bitmap ->
  find_next_zero_bit bitmap bits start = find_next_bit (complement bitmap) bits start.
Proof.
  intros HB. unfold find_next_zero_bit, find_next_bit.
  destruct (bits <=? start); [reflexivity|].
  rewrite load_complement, length_complement.
  destruct (load bitmap (start / BITS_PER_LONG)) as [w|] eqn:Hw; [|reflexivity].
  cbn. rewrite (first_zero_candidate w start (load_is_word _ _ _ HB Hw)).
  rewrite find_next_zero_bit_loop_complement. reflexivity.
Qed.

Lemma test_bit_complement bitmap x :
  test_bit x (complement bitmap) = negb <$> test_bit x bitmap.
Proof.
  destruct (load bitmap (x / BITS_PER_LONG)) as [w|] eqn:Hw.
  - rewrite (test_bit_load bitmap x w Hw).
    rewrite (test_bit_load (complement bitmap) x (Z.lxor w ULONG_MAX))
      by (rewrite load_complement, Hw; reflexivity).
    cbn. f_equal. apply lxor_ULONG_MAX_bits.
    apply Z.mod_pos_bound. machine. lia.
  - unfold test_bit. rewrite load_complement, Hw. reflexivity.
Qed.

Lemma scanned_complement bitmap bits limit s r :
  scanned true (complement bitmap) bits limit s r ->
  scanned false bitmap bits limit s r.
Proof.
  assert (Hflip : forall x b, test_bit x (complement bitmap) = Some b ->
                              test_bit x bitmap = Some (negb b)).
  { intros x b. rewrite test_bit_complement.
    destruct (test_bit x bitmap) as [c|]; cbn; [|discriminate].
    intros [= <-]. now rewrite negb_involutive. }
  intros [(Hr & Hv & Hlow) | (Hr & Hnone)]; [left | right].
  - split; [exact Hr|]. split; [exact (Hflip _ _ Hv)|].
    intros i Hi. exact (Hflip _ _ (Hlow i Hi)).
  - split; [exact Hr|]. intros i Hi. exact (Hflip _ _ (Hnone i Hi)).
Qed.

Lemma find_next_zero_bit_scanned (bitmap : list Z) bits start :
  is_bitmap bitmap -> holds bitmap bits -> 0 <= start -> bits <= SIZE_MAX ->
  exists r, find_next_zero_bit bitmap bits start = Some r /\
            scanned false bitmap bits (scan_limit bits start) start r.
Proof.
  intros HB Hh Hs Hbits. rewrite find_next_zero_bit_complement by exact HB.
  destruct (find_next_bit_scanned (complement bitmap) bits start
              (is_bitmap_complement _ HB) (holds_complement _ _ Hh) Hs Hbits)
    as (r & Hrun & Hsc).
  exists r. split; [exact Hrun | now apply scanned_complement].
Qed.

(** * Scan limits and uniqueness of the scan result *)

Lemma scan_limit_le bits start : scan_limit bits start <= bits.
Proof. unfold scan_limit. lia. Qed.

Lemma scan_limit_gt bits start : 0 <= start < bits -> start < scan_limit bits start.
Proof.
  intros H. unfold scan_limit. change BITS_PER_LONG with 64.
  Z.div_mod_to_equations; lia.
Qed.

(** Without wrap-around in [BITS_TO_LONGS] the scan covers all of
    [start, bits). *)
Lemma scan_limit_full bits start :
  0 <= start -> 0 <= bits <= MAX_BITS -> scan_limit bits start = bits.
Proof.
  intros Hs Hb. unfold scan_limit.
  rewrite BITS_TO_LONGS_no_overflow by lia. change BITS_PER_LONG with 64.
  machine. Z.div_mod_to_equations; lia.
Qed.

Lemma scanned_unique v bitmap bits limit s r r' :
  scanned v bitmap bits limit s r -> scanned v bitmap bits limit s r' -> r = r'.
Proof.
  assert (Hne : Some v <> Some (negb v)) by (destruct v; discriminate).
  intros [(Hr & Hv & Hlow) | (Hr & Hnone)] [(Hr' & Hv' & Hlow') | (Hr' & Hnone')].
  - destruct (Z.lt_trichotomy r r') as [Hlt | [Heq | Hgt]]; [|exact Heq|].
    + rewrite (Hlow' r ltac:(lia)) in Hv. congruence.
    + rewrite (Hlow r' ltac:(lia)) in Hv'. congruence.
  - rewrite (Hnone' r ltac:(lia)) in Hv. congruence.
  - rewrite (Hnone r' ltac:(lia)) in Hv'. congruence.
  - congruence.
Qed.

(** * find_next, the reference scanner *)

Lemma test_bit_Some (bitmap : list Z) bits i :
  holds bitmap bits -> 0 <= i < bits -> exists b, test_bit i bitmap = Some b.
Proof.
  intros Hh Hi.
  destruct (load_Some bitmap (i / BITS_PER_LONG)) as [w Hw].
  { machine. Z.div_mod_to_equations; lia. }
  eexists. apply test_bit_load. exact Hw.
Qed.

Lemma find_next_loop_spec (bitmap : list Z) bits fuel :
  holds bitmap bits -> bits <= SIZE_MAX ->
  forall i, 0 <= i -> bits - i <= Z.of_nat fuel ->
    exists r, find_next_loop fuel bitmap bits i = Some r /\
              next_match true bitmap bits i r.
Proof.
  intros Hh Hbits. induction fuel as [|fuel IH]; intros i Hi Hfuel;
    cbn [find_next_loop]; destruct (Z.ltb_spec i bits) as [Hlt|Hge];
    try (exists bits; split; [reflexivity|]; right; split; [reflexivity | intros; lia]).
  - lia.
  - destruct (test_bit_Some bitmap bits i Hh ltac:(lia)) as [b Hb]. rewrite Hb. cbn.
    destruct b.
    + exists i. split; [reflexivity|]. left. split; [lia|]. split; [exact Hb | intros; lia].
    + rewrite (wrap_small (i + 1)) by (machine; lia).
      destruct (IH (i + 1) ltac:(lia) ltac:(lia)) as (r & Hrun & Hm).
      exists r. split; [exact Hrun|].
      assert (Hext : forall x bound, (forall y, i + 1 <= y < bound -> test_bit y bitmap = Some false) ->
                                     i <= x < bound -> test_bit x bitmap = Some false).
      { intros x bound Hall Hx. destruct (Z.eq_dec x i) as [->|]; [exact Hb | apply Hall; lia]. }
      destruct Hm as [(Hr & Hv & Hlow) | (Hr & Hnone)]; [left | right].
      * split; [lia|]. split; [exact Hv|]. intros x Hx. exact (Hext x r Hlow Hx).
      * split; [exact Hr|]. intros x Hx. exact (Hext x bits Hnone Hx).
Qed.

Lemma find_next_spec (bitmap : list Z) bits start :
  holds bitmap bits -> 0 <= start -> bits <= SIZE_MAX ->
  exists r, find_next bitmap bits start = Some r /\
            next_match true bitmap bits start r.
Proof.
  intros Hh Hs Hbits. unfold find_next.
  apply find_next_loop_spec; try assumption.
  unfold holds in Hh. change (Z.to_nat BITS_PER_LONG) with 64%nat.
  change BITS_PER_LONG with 64 in Hh. lia.
Qed.

(** More fuel than the storage has bits changes nothing for the reference
    scanner either: the next [test_bit] would read outside of the storage. *)
Lemma find_next_loop_fuel (bitmap : list Z) bits fuel :
  Z.of_nat (length bitmap) < 2 ^ 58 ->
  forall i,
    0 <= i -> 64 * Z.of_nat (length bitmap) - i <= Z.of_nat fuel ->
    find_next_loop (S fuel) bitmap bits i = find_next_loop fuel bitmap bits i.
Proof.
  intros Hlen. induction fuel as [|fuel IH]; intros i Hi Hfuel.
  - cbn [find_next_loop]. destruct (i <? bits); [|reflexivity].
    unfold test_bit, load. change BITS_PER_LONG with 64.
    destruct (Z.ltb_spec (i / 64) (Z.of_nat (length bitmap))) as [Hin|Hout].
    + exfalso. Z.div_mod_to_equations; lia.
    + now rewrite andb_false_r.
  - change (find_next_loop (S (S fuel)) bitmap bits i)
      with (if i <? bits
            then b ← test_bit i bitmap;
                 if b : bool then Some i
                 else find_next_loop (S fuel) bitmap bits (wrap (i + 1))
            else Some bits).
    change (find_next_loop (S fuel) bitmap bits i)
      with (if i <? bits
            then b ← test_bit i bitmap;
                 if b : bool then Some i
                 else find_next_loop fuel bitmap bits (wrap (i + 1))
            else Some bits).
    destruct (i <? bits); [|reflexivity].
    destruct (test_bit i bitmap) as [[|]|] eqn:Hb; try reflexivity. cbn.
    assert (Hin : i / 64 < Z.of_nat (length bitmap)).
    { unfold test_bit in Hb. change BITS_PER_LONG with 64 in Hb.
      destruct (load bitmap (i / 64)) as [w|] eqn:Hw; [|discriminate].
      apply load_inv in Hw. lia. }
    rewrite (wrap_small (i + 1)) by (machine; Z.div_mod_to_equations; lia).
    apply IH; lia.
Qed.

(** Past [MAX_BITS] the word-parallel scan and the reference part ways:
    [BITS_TO_LONGS] has wrapped to 0, so only the word of [start] is
    looked at. *)
Example scan_beyond_MAX_BITS :
  MAX_BITS < SIZE_MAX /\
  find_next_bit [0; 1] SIZE_MAX 0 = Some SIZE_MAX /\
  test_bit 64 [0; 1] = Some true.
Proof. repeat split. Qed.

(** * Writes: memset, store and the two initialisers *)

Lemma load_lookup (bitmap : list Z) (n : nat) : load bitmap (Z.of_nat n) = bitmap !! n.
Proof.
  unfold load. destruct (Z.leb_spec 0 (Z.of_nat n)); [|lia].
  destruct (Z.ltb_spec (Z.of_nat n) (Z.of_nat (length bitmap))); cbn [andb].
  - now rewrite Nat2Z.id.
  - symmetry. apply lookup_ge_None_2. lia.
Qed.

Lemma is_bitmap_load (bitmap : list Z) :
  (forall i w, load bitmap i = Some w -> is_word w) -> is_bitmap bitmap.
Proof.
  intros H. unfold is_bitmap. rewrite Forall_lookup. intros n w Hn.
  apply (H (Z.of_nat n)). now rewrite load_lookup.
Qed.

Lemma byte_fill_ff : byte_fill 255 = ULONG_MAX.
Proof. reflexivity. Qed.

Lemma byte_fill_0 : byte_fill 0 = 0.
Proof. reflexivity. Qed.

Lemma memset_spec (bitmap : list Z) c n words :
  0 <= words <= Z.of_nat (length bitmap) -> n = words * SIZEOF_LONG ->
  exists bitmap',
    memset bitmap c n = Some bitmap' /\
    length bitmap' = length bitmap /\
    forall i, load bitmap' i
              = if (0 <=? i) && (i <? words) then Some (byte_fill c) else load bitmap i.
Proof.
  intros Hw ->. unfold memset. rewrite Z.div_mul by (machine; lia).
  destruct (Z.leb_spec words (Z.of_nat (length bitmap))); [|lia].
  eexists. split; [reflexivity|].
  assert (Hlen : length (replicate (Z.to_nat words) (byte_fill c)
                           ++ drop (Z.to_nat words) bitmap) = length bitmap).
  { rewrite length_app, length_replicate, length_drop. lia. }
  split; [exact Hlen|]. intros i. unfold load at 1. rewrite Hlen.
  destruct (Z.leb_spec 0 i) as [Hi|Hi]; cbn [andb].
  2:{ unfold load. destruct (Z.leb_spec 0 i); [lia | reflexivity]. }
  destruct (Z.ltb_spec i words) as [Hiw|Hiw].
  - destruct (Z.ltb_spec i (Z.of_nat (length bitmap))); [|lia].
    rewrite lookup_app_l by (rewrite length_replicate; lia).
    apply lookup_replicate_2. lia.
  - unfold load. destruct (Z.leb_spec 0 i); [|lia]. cbn [andb].
    destruct (Z.ltb_spec i (Z.of_nat (length bitmap))); [|reflexivity].
    rewrite lookup_app_r by (rewrite length_replicate; lia).
    rewrite lookup_drop, length_replicate. f_equal. lia.
Qed.

Lemma store_spec (bitmap : list Z) i v :
  0 <= i < Z.of_nat (length bitmap) ->
  exists bitmap',
    store bitmap i v = Some bitmap' /\
    length bitmap' = length bitmap /\
    forall k, load bitmap' k = if k =? i then Some v else load bitmap k.
Proof.
  intros Hi. unfold store.
  destruct (Z.leb_spec 0 i); [|lia].
  destruct (Z.ltb_spec i (Z.of_nat (length bitmap))); [|lia]. cbn [andb].
  eexists. split; [reflexivity|]. split; [apply length_insert|].
  intros k. unfold load. rewrite length_insert.
  destruct (Z.eqb_spec k i) as [->|Hne].
  - destruct (Z.leb_spec 0 i); [|lia].
    destruct (Z.ltb_spec i (Z.of_nat (length bitmap))); [|lia]. cbn [andb].
    apply list_lookup_insert_eq. lia.
  - destruct ((0 <=? k) && (k <? Z.of_nat (length bitmap))) eqn:E; [|reflexivity].
    apply andb_true_iff in E as [E1 E2]. apply Z.leb_le in E1.
    apply list_lookup_insert_ne. lia.
Qed.

(** [bitmap_fill] in terms of the words it leaves behind. *)
Lemma bitmap_fill_spec (bitmap : list Z) bits :
  0 <= bits -> 1 <= BITS_TO_LONGS bits <= Z.of_nat (length bitmap) ->
  exists bitmap',
    bitmap_fill bitmap bits = Some bitmap' /\
    length bitmap' = length bitmap /\
    forall k, load bitmap' k
              = if (0 <=? k) && (k <? BITS_TO_LONGS bits - 1) then Some ULONG_MAX
                else if k =? BITS_TO_LONGS bits - 1 then Some (BITMAP_LAST_WORD_MASK bits)
                else load bitmap k.
Proof.
  intros Hb Hl. unfold bitmap_fill.
  pose proof (BITS_TO_LONGS_range bits Hb) as (_ & _ & Hl2).
  set (l := BITS_TO_LONGS bits) in *.
  rewrite (wrap_small (l - 1)) by (machine; lia).
  destruct (Z.ltb_spec 1 l) as [Hgt|Hle].
  - rewrite (wrap_small ((l - 1) * SIZEOF_LONG)) by (machine; lia).
    destruct (memset_spec bitmap 255 ((l - 1) * SIZEOF_LONG) (l - 1)
                ltac:(lia) eq_refl) as (b1 & -> & Hlen1 & Hld1).
    cbn. destruct (store_spec b1 (l - 1) (BITMAP_LAST_WORD_MASK bits)
                     ltac:(lia)) as (b2 & -> & Hlen2 & Hld2).
    eexists. split; [reflexivity|]. split; [congruence|].
    intros k. rewrite Hld2, Hld1, byte_fill_ff.
    destruct (Z.eqb_spec k (l - 1)) as [->|Hne].
    + destruct (Z.ltb_spec (l - 1) (l - 1)); [lia|]. now rewrite andb_false_r.
    + reflexivity.
  - cbn. destruct (store_spec bitmap (l - 1) (BITMAP_LAST_WORD_MASK bits)
                     ltac:(lia)) as (b2 & -> & Hlen2 & Hld2).
    eexists. split; [reflexivity|]. split; [exact Hlen2|].
    intros k. rewrite Hld2.
    destruct (Z.leb_spec 0 k), (Z.ltb_spec k (l - 1)); cbn [andb]; try reflexivity. lia.
Qed.

(** [bitmap_zero] in terms of the words it leaves behind. *)
Lemma bitmap_zero_spec (bitmap : list Z) bits :
  0 <= bits -> BITS_TO_LONGS bits <= Z.of_nat (length bitmap) ->
  exists bitmap',
    bitmap_zero bitmap bits = Some bitmap' /\
    length bitmap' = length bitmap /\
    forall k, load bitmap' k
              = if (0 <=? k) && (k <? BITS_TO_LONGS bits) then Some 0 else load bitmap k.
Proof.
  intros Hb Hl. unfold bitmap_zero.
  pose proof (BITS_TO_LONGS_range bits Hb) as (Hl0 & _ & Hl2).
  set (l := BITS_TO_LONGS bits) in *.
  rewrite (wrap_small (l * SIZEOF_LONG)) by (machine; lia).
  destruct (memset_spec bitmap 0 (l * SIZEOF_LONG) l ltac:(lia) eq_refl)
    as (b1 & -> & Hlen1 & Hld1).
  eexists. split; [reflexivity|]. split; [exact Hlen1|].
  intros k. rewrite Hld1, byte_fill_0. reflexivity.
Qed.

(** * The sizing macro against the specified ceiling *)

Lemma words_for_spec_ceiling bits :
  BITS_PER_LONG * (words_for_spec bits - 1) < bits <= BITS_PER_LONG * words_for_spec bits.
Proof.
  unfold words_for_spec. change BITS_PER_LONG with 64.
  Z.div_mod_to_equations; lia.
Qed.

(** C5 (as stated, refuted).  At [bits = SIZE_MAX] the addition
    [bits + BITS_PER_LONG - 1] wraps around and [BITS_TO_LONGS] yields 0
    words where the ceiling of [bits / W] is 2^58. *)
Lemma BITS_TO_LONGS_overflows :
  1 <= SIZE_MAX /\
  BITS_TO_LONGS SIZE_MAX = 0 /\
  words_for_spec SIZE_MAX = 288230376151711744 /\
  BITS_TO_LONGS SIZE_MAX <> words_for_spec SIZE_MAX.
Proof.
  split; [vm_compute; discriminate|].
  split; [reflexivity|]. split; [reflexivity|]. vm_compute. discriminate.
Qed.

(** C5 (amended).  For a bit count of the size type, [BITS_TO_LONGS] is the
    ceiling of [bits / W] exactly when [bits + W - 1] is representable,
    that is for [bits <= SIZE_MAX - (W - 1)]; this is the precondition the
    source documents for [BITOPS_DIV_CEIL]. *)
Theorem BITS_TO_LONGS_ceiling bits :
  1 <= bits <= SIZE_MAX ->
  (BITS_TO_LONGS bits = words_for_spec bits <-> bits <= MAX_BITS).
Proof.
  intros Hb. split.
  - intros E. destruct (Z.le_gt_cases bits MAX_BITS) as [|Hbig]; [assumption|].
    exfalso. revert E. unfold BITS_TO_LONGS, BITOPS_DIV_CEIL, words_for_spec.
    machine. rewrite Zminus_mod_idemp_l.
    replace (bits + 64 - 1) with (bits + 63 - 18446744073709551616
                                  + 1 * 18446744073709551616) by lia.
    rewrite Z.mod_add, Z.mod_small by lia.
    Z.div_mod_to_equations; lia.
  - intros Hle. rewrite BITS_TO_LONGS_no_overflow by lia.
    unfold words_for_spec. change BITS_PER_LONG with 64.
    Z.div_mod_to_equations; lia.
Qed.

Lemma BITS_TO_LONGS_ceiling_witness :
  1 <= 65 <= SIZE_MAX /\ (BITS_TO_LONGS 65 = words_for_spec 65 <-> 65 <= MAX_BITS).
Proof.
  split; [machine; lia | apply (BITS_TO_LONGS_ceiling 65); machine; lia].
Defined.

(** * The last-word mask *)

(** C7.  [BITMAP_LAST_WORD_MASK bits] has exactly the bits
    [0 .. bits mod W - 1] set when [bits] is not a multiple of the word
    size, and all [W] bits set when it is. *)
Theorem BITMAP_LAST_WORD_MASK_correct bits :
  BITMAP_LAST_WORD_MASK bits
  = (if bits mod BITS_PER_LONG =? 0 then ULONG_MAX
     else 2 ^ (bits mod BITS_PER_LONG) - 1) /\
  forall j, Z.testbit (BITMAP_LAST_WORD_MASK bits) j
            = (0 <=? j) && (if bits mod BITS_PER_LONG =? 0 then j <? BITS_PER_LONG
                            else j <? bits mod BITS_PER_LONG).
Proof.
  assert (Hbits : forall j, Z.testbit (BITMAP_LAST_WORD_MASK bits) j
            = (0 <=? j) && (if bits mod BITS_PER_LONG =? 0 then j <? BITS_PER_LONG
                            else j <? bits mod BITS_PER_LONG)).
  { intros j. destruct (Z.leb_spec 0 j) as [Hj|Hj]; cbn [andb].
    - rewrite LAST_WORD_MASK_bits, neg_mod_word by lia.
      pose proof (Z.mod_pos_bound bits BITS_PER_LONG ltac:(machine; lia)) as Hm.
      change BITS_PER_LONG with 64 in *.
      destruct (Z.eqb_spec (bits mod 64) 0).
      + f_equal. lia.
      + destruct (Z.ltb_spec (j + (64 - bits mod 64)) 64),
          (Z.ltb_spec j (bits mod 64)); try reflexivity; lia.
    - now apply Z.testbit_neg_r. }
  split; [|exact Hbits].
  apply Z.bits_inj'. intros j Hj. rewrite Hbits.
  destruct (Z.leb_spec 0 j); [|lia]. cbn [andb].
  pose proof (Z.mod_pos_bound bits BITS_PER_LONG ltac:(machine; lia)) as Hm.
  destruct (Z.eqb_spec (bits mod BITS_PER_LONG) 0).
  - rewrite ULONG_MAX_bits. destruct (Z.leb_spec 0 j); [reflexivity | lia].
  - replace (2 ^ (bits mod BITS_PER_LONG) - 1) with (Z.ones (bits mod BITS_PER_LONG))
      by (rewrite Z.ones_equiv; lia).
    destruct (Z.ltb_spec j (bits mod BITS_PER_LONG)).
    + symmetry. apply Z.ones_spec_low. lia.
    + symmetry. apply Z.ones_spec_high. lia.
Qed.

(** * The scanners against the bit-by-bit contract *)

(** C1.  On a storage of (at least) [BITS_TO_LONGS bits] words, for every
    [bits] in [1, MAX_BITS] and every start [s], [find_next_bit] returns the
    smallest index [i] with [s <= i < bits] whose bit is set, or [bits] when
    there is none; it returns exactly what the bit-by-bit reference scanner
    [find_next] returns. *)
Theorem find_next_bit_is_first_set (bitmap : list Z) bits s :
  is_bitmap bitmap ->
  BITS_TO_LONGS bits <= Z.of_nat (length bitmap) ->
  1 <= bits <= MAX_BITS ->
  0 <= s ->
  exists r, find_next_bit bitmap bits s = Some r /\
            next_match true bitmap bits s r /\
            find_next bitmap bits s = Some r.
Proof.
  intros HB Hlen Hbits Hs.
  pose proof (holds_BITS_TO_LONGS bitmap bits Hbits Hlen) as Hh.
  assert (Hmax : bits <= SIZE_MAX) by (machine; lia).
  destruct (find_next_bit_scanned bitmap bits s HB Hh Hs Hmax) as (r & Hrun & Hsc).
  rewrite scan_limit_full in Hsc by lia.
  exists r. split; [exact Hrun|]. split; [exact Hsc|].
  destruct (find_next_spec bitmap bits s Hh Hs Hmax) as (r' & Hrun' & Hsc').
  rewrite Hrun'. f_equal. exact (scanned_unique _ _ _ _ _ _ _ Hsc' Hsc).
Qed.

Lemma find_next_bit_is_first_set_witness :
  exists r, find_next_bit [0; 5; 7] 130 3 = Some r /\
            next_match true [0; 5; 7] 130 3 r /\
            find_next [0; 5; 7] 130 3 = Some r.
Proof.
  apply (find_next_bit_is_first_set [0; 5; 7] 130 3); closed_side.
Defined.

(** C2.  On a storage of (at least) [BITS_TO_LONGS bits] words, for every
    [bits] in [1, MAX_BITS] and every start [s], [find_next_zero_bit]
    returns the smallest index [i] with [s <= i < bits] whose bit is clear,
    or [bits] when there is none.  In particular the inverted first word
    offers no candidate before [s]: its bits below [s mod W] are all 0. *)
Theorem find_next_zero_bit_is_first_clear (bitmap : list Z) bits s :
  is_bitmap bitmap ->
  BITS_TO_LONGS bits <= Z.of_nat (length bitmap) ->
  1 <= bits <= MAX_BITS ->
  0 <= s ->
  (exists r, find_next_zero_bit bitmap bits s = Some r /\
             next_match false bitmap bits s r) /\
  (forall w j, is_word w -> 0 <= j < s mod BITS_PER_LONG ->
     Z.testbit (Z.lxor (Z.lor w (not_ul (BITMAP_FIRST_WORD_MASK s))) ULONG_MAX) j
     = false).
Proof.
  intros HB Hlen Hbits Hs. split.
  - pose proof (holds_BITS_TO_LONGS bitmap bits Hbits Hlen) as Hh.
    assert (Hmax : bits <= SIZE_MAX) by (machine; lia).
    destruct (find_next_zero_bit_scanned bitmap bits s HB Hh Hs Hmax)
      as (r & Hrun & Hsc).
    rewrite scan_limit_full in Hsc by lia.
    exists r. split; [exact Hrun | exact Hsc].
  - intros w j Hw Hj. rewrite first_zero_candidate by exact Hw.
    rewrite Z.land_spec, FIRST_WORD_MASK_bits by lia.
    destruct (Z.leb_spec (s mod BITS_PER_LONG) j); [lia|].
    cbn [andb]. apply andb_false_r.
Qed.

Lemma find_next_zero_bit_is_first_clear_witness :
  (exists r, find_next_zero_bit [ULONG_MAX - 2; ULONG_MAX; 3] 130 3 = Some r /\
             next_match false [ULONG_MAX - 2; ULONG_MAX; 3] 130 3 r) /\
  (forall w j, is_word w -> 0 <= j < 3 mod BITS_PER_LONG ->
     Z.testbit (Z.lxor (Z.lor w (not_ul (BITMAP_FIRST_WORD_MASK 3))) ULONG_MAX) j
     = false).
Proof.
  apply (find_next_zero_bit_is_first_clear [ULONG_MAX - 2; ULONG_MAX; 3] 130 3);
    closed_side.
Defined.

(** C4.  Whatever the padding bits of the last word hold, for every
    [bits >= 1] and every start, both scanners return an index that is at
    most [bits]; an index below [bits] that they return is that of a set
    (resp. clear) content bit, so a candidate at or after [bits], which only
    padding can produce, is never the result. *)
Theorem scan_result_within_bits (bitmap : list Z) bits start :
  is_bitmap bitmap ->
  holds bitmap bits ->
  1 <= bits <= SIZE_MAX ->
  0 <= start ->
  exists r r',
    find_next_bit bitmap bits start = Some r /\
    find_next_zero_bit bitmap bits start = Some r' /\
    r <= bits /\ r' <= bits /\
    (r < bits -> start <= r /\ test_bit r bitmap = Some true) /\
    (r' < bits -> start <= r' /\ test_bit r' bitmap = Some false).
Proof.
  intros HB Hh Hbits Hs.
  destruct (find_next_bit_scanned bitmap bits start HB Hh Hs ltac:(lia))
    as (r & Hrun & Hsc).
  destruct (find_next_zero_bit_scanned bitmap bits start HB Hh Hs ltac:(lia))
    as (r' & Hrun' & Hsc').
  pose proof (scan_limit_le bits start) as Hlim.
  exists r, r'. split; [exact Hrun|]. split; [exact Hrun'|].
  destruct Hsc as [(Hr & Hv & _) | (Hr & _)], Hsc' as [(Hr' & Hv' & _) | (Hr' & _)];
    repeat split; try lia; try (intros; assumption).
Qed.

Lemma scan_result_within_bits_witness :
  exists r r',
    find_next_bit [0; 6] 65 0 = Some r /\
    find_next_zero_bit [0; 6] 65 0 = Some r' /\
    r <= 65 /\ r' <= 65 /\
    (r < 65 -> 0 <= r /\ test_bit r [0; 6] = Some true) /\
    (r' < 65 -> 0 <= r' /\ test_bit r' [0; 6] = Some false).
Proof.
  apply (scan_result_within_bits [0; 6] 65 0); closed_side.
Defined.

(** C6.  For a bit count and a start of the size type with
    [start >= bits], both scanners return [bits] at once, whatever the
    storage is: they do so even on the empty storage, where any read of a
    word would be undefined, so no word is read.  In particular
    [find_next_bit B n n] is [n], and so is [find_next_bit B n (n + 1)]
    whenever [n + 1] is a value of the size type; the sum is the caller's
    [size_t] addition, which for [n = SIZE_MAX] wraps around to 0 and is
    then no start at or after [n]. *)
Theorem scan_from_past_the_end (bitmap : list Z) bits start :
  0 <= bits <= SIZE_MAX ->
  bits <= start <= SIZE_MAX ->
  find_next_bit bitmap bits start = Some bits /\
  find_next_zero_bit bitmap bits start = Some bits /\
  find_next_bit [] bits start = Some bits /\
  find_next_zero_bit [] bits start = Some bits /\
  find_next_bit bitmap bits bits = Some bits /\
  (bits + 1 <= SIZE_MAX -> find_next_bit bitmap bits (wrap (bits + 1)) = Some bits).
Proof.
  intros Hbits Hstart. unfold find_next_bit, find_next_zero_bit.
  destruct (Z.leb_spec bits start); [|lia].
  destruct (Z.leb_spec bits bits); [|lia].
  repeat (split; [reflexivity|]).
  intros Hfits. rewrite (wrap_small (bits + 1)) by (machine; lia).
  destruct (Z.leb_spec bits (bits + 1)); [reflexivity | lia].
Qed.

Lemma scan_from_past_the_end_witness :
  find_next_bit [0; 1] 65 70 = Some 65 /\
  find_next_zero_bit [0; 1] 65 70 = Some 65 /\
  find_next_bit [] 65 70 = Some 65 /\
  find_next_zero_bit [] 65 70 = Some 65 /\
  find_next_bit [0; 1] 65 65 = Some 65 /\
  find_next_bit [0; 1] 65 (wrap (65 + 1)) = Some 65.
Proof.
  destruct (scan_from_past_the_end [0; 1] 65 70)
    as (H1 & H2 & H3 & H4 & H5 & H6); try closed_side.
  repeat (split; [assumption|]). apply H6. closed_side.
Defined.

(** At [n = SIZE_MAX] the caller's [n + 1] is 0, and the call is an
    ordinary scan from the first bit. *)
Example scan_from_wrapped_start :
  wrap (SIZE_MAX + 1) = 0 /\
  find_next_bit [1] SIZE_MAX (wrap (SIZE_MAX + 1)) = Some 0.
Proof. split; reflexivity. Qed.

(** C10.  Rescanning from a found position finds it again: if
    [find_next_bit] (resp. [find_next_zero_bit]) returns [r < bits] from
    [start], then started at [r] it returns [r]. *)
Theorem rescan_fixed_point (bitmap : list Z) bits start r r' :
  is_bitmap bitmap ->
  holds bitmap bits ->
  1 <= bits <= SIZE_MAX ->
  0 <= start ->
  find_next_bit bitmap bits start = Some r ->
  find_next_zero_bit bitmap bits start = Some r' ->
  (r < bits -> find_next_bit bitmap bits r = Some r) /\
  (r' < bits -> find_next_zero_bit bitmap bits r' = Some r').
Proof.
  intros HB Hh Hbits Hs Hrun Hrun'.
  assert (Hfix : forall v r0,
            0 <= r0 < bits -> test_bit r0 bitmap = Some v ->
            forall r1, scanned v bitmap bits (scan_limit bits r0) r0 r1 -> r1 = r0).
  { intros v r0 Hr0 Hv r1 Hsc.
    assert (Hne : Some v <> Some (negb v)) by (destruct v; discriminate).
    pose proof (scan_limit_gt bits r0 Hr0) as Hlim.
    destruct Hsc as [(Hr1 & _ & Hlow) | (_ & Hnone)].
    - destruct (Z.eq_dec r1 r0) as [|Hd]; [assumption|].
      rewrite (Hlow r0 ltac:(lia)) in Hv. congruence.
    - rewrite (Hnone r0 ltac:(lia)) in Hv. congruence. }
  split; intros Hr.
  - destruct (find_next_bit_scanned bitmap bits start HB Hh Hs ltac:(lia))
      as (r0 & Hrun0 & Hsc0).
    rewrite Hrun in Hrun0. injection Hrun0 as <-.
    destruct Hsc0 as [(Hr0 & Hv & _) | (Hr0 & _)]; [|lia].
    destruct (find_next_bit_scanned bitmap bits r HB Hh ltac:(lia) ltac:(lia))
      as (r1 & Hrun1 & Hsc1).
    rewrite Hrun1. f_equal. apply (Hfix true r ltac:(lia) Hv r1 Hsc1).
  - destruct (find_next_zero_bit_scanned bitmap bits start HB Hh Hs ltac:(lia))
      as (r0 & Hrun0 & Hsc0).
    rewrite Hrun' in Hrun0. injection Hrun0 as <-.
    destruct Hsc0 as [(Hr0 & Hv & _) | (Hr0 & _)]; [|lia].
    destruct (find_next_zero_bit_scanned bitmap bits r' HB Hh ltac:(lia) ltac:(lia))
      as (r1 & Hrun1 & Hsc1).
    rewrite Hrun1. f_equal. apply (Hfix false r' ltac:(lia) Hv r1 Hsc1).
Qed.

Lemma rescan_fixed_point_witness :
  find_next_bit [0; 5; 7] 130 3 = Some 64 /\
  find_next_zero_bit [0; 5; 7] 130 3 = Some 3 /\
  find_next_bit [0; 5; 7] 130 64 = Some 64 /\
  find_next_zero_bit [0; 5; 7] 130 3 = Some 3.
Proof.
  split; [vm_compute; reflexivity|]. split; [vm_compute; reflexivity|].
  destruct (rescan_fixed_point [0; 5; 7] 130 3 64 3) as [Hset Hclear];
    try closed_side.
  split; [apply Hset | apply Hclear]; closed_side.
Defined.

(** * The bulk initialisers *)

Lemma last_mask_bit bits j :
  0 <= j < 64 ->
  Z.testbit (BITMAP_LAST_WORD_MASK bits) j
  = (bits mod 64 =? 0) || (j <? bits mod 64).
Proof.
  intros Hj. rewrite LAST_WORD_MASK_bits, neg_mod_word by lia.
  change BITS_PER_LONG with 64.
  pose proof (Z.mod_pos_bound bits 64 ltac:(lia)) as Hm.
  destruct (Z.eqb_spec (bits mod 64) 0); cbn [orb].
  - destruct (Z.ltb_spec (j + 0) 64); [reflexivity | lia].
  - destruct (Z.ltb_spec (j + (64 - bits mod 64)) 64), (Z.ltb_spec j (bits mod 64));
      try reflexivity; lia.
Qed.

(** Beyond [MAX_BITS] the sizing macro wraps around to 0 words, and
    [bitmap_fill] then stores to [bitmap[l - 1]] with [l - 1] wrapped to
    [SIZE_MAX]: no storage has that word. *)
Lemma bitmap_fill_beyond_MAX_BITS (bitmap : list Z) n :
  MAX_BITS < n <= SIZE_MAX -> Z.of_nat (length bitmap) <= SIZE_MAX ->
  BITS_TO_LONGS n = 0 /\ bitmap_fill bitmap n = None.
Proof.
  intros Hn Hlen.
  assert (Hl : BITS_TO_LONGS n = 0).
  { unfold BITS_TO_LONGS, BITOPS_DIV_CEIL. machine. rewrite Zminus_mod_idemp_l.
    replace (n + 64 - 1) with (n + 63 - 18446744073709551616
                               + 1 * 18446744073709551616) by lia.
    rewrite Z.mod_add, Z.mod_small by lia. apply Z.div_small. lia. }
  split; [exact Hl|]. unfold bitmap_fill. rewrite Hl. cbn.
  unfold store. change (wrap (0 - 1)) with SIZE_MAX.
  destruct (Z.ltb_spec SIZE_MAX (Z.of_nat (length bitmap))); [lia|].
  now rewrite andb_false_r.
Qed.

(** C3 (as stated, refuted).  For [n = SIZE_MAX] the macro sizes the
    storage to 0 words and [bitmap_fill] is undefined, on that storage and
    on a larger one: there is no filled bitmap to test. *)
Lemma bitmap_fill_at_SIZE_MAX :
  1 <= SIZE_MAX /\
  Z.of_nat (length (@nil Z)) = BITS_TO_LONGS SIZE_MAX /\
  bitmap_fill [] SIZE_MAX = None /\
  bitmap_fill [0; 0] SIZE_MAX = None.
Proof.
  split; [vm_compute; discriminate|]. repeat split.
Qed.

(** C3 (amended).  After [bitmap_fill B n], for [1 <= n <= MAX_BITS] (the
    range in which the sizing macro does not wrap around), every bit
    [i < n] tests true and every bit of the last word at a position that
    lies at or after [n] is 0. *)
Theorem bitmap_fill_content_and_padding (bitmap : list Z) n :
  BITS_TO_LONGS n <= Z.of_nat (length bitmap) ->
  1 <= n <= MAX_BITS ->
  exists bitmap',
    bitmap_fill bitmap n = Some bitmap' /\
    (forall i, 0 <= i < n -> test_bit i bitmap' = Some true) /\
    exists last,
      load bitmap' (BITS_TO_LONGS n - 1) = Some last /\
      forall j, 0 <= j < BITS_PER_LONG ->
                n <= BITS_PER_LONG * (BITS_TO_LONGS n - 1) + j ->
                Z.testbit last j = false.
Proof.
  intros Hlen Hn. pose proof (BITS_TO_LONGS_bounds n Hn) as Hl.
  destruct (bitmap_fill_spec bitmap n ltac:(lia) ltac:(lia))
    as (b' & Hrun & _ & Hld).
  set (l := BITS_TO_LONGS n) in *. change BITS_PER_LONG with 64.
  exists b'. split; [exact Hrun|]. split.
  - intros i Hi.
    assert (Hk : 0 <= i / 64 <= l - 1) by (Z.div_mod_to_equations; lia).
    assert (Hj : 0 <= i mod 64 < 64) by (apply Z.mod_pos_bound; lia).
    destruct (Z.eq_dec (i / 64) (l - 1)) as [E|E].
    + rewrite (test_bit_load b' i (BITMAP_LAST_WORD_MASK n)).
      * change BITS_PER_LONG with 64. f_equal. rewrite last_mask_bit by lia.
        apply orb_true_iff.
        destruct (Z.eq_dec (n mod 64) 0) as [E0|E0];
          [left; now apply Z.eqb_eq | right; apply Z.ltb_lt].
        Z.div_mod_to_equations; lia.
      * change BITS_PER_LONG with 64. rewrite Hld, E.
        destruct (Z.ltb_spec (l - 1) (l - 1)); [lia|].
        rewrite andb_false_r, Z.eqb_refl. reflexivity.
    + rewrite (test_bit_load b' i ULONG_MAX).
      * change BITS_PER_LONG with 64. f_equal. rewrite ULONG_MAX_bits.
        destruct (Z.leb_spec 0 (i mod 64)), (Z.ltb_spec (i mod 64) 64);
          try reflexivity; lia.
      * change BITS_PER_LONG with 64. rewrite Hld.
        destruct (Z.leb_spec 0 (i / 64)), (Z.ltb_spec (i / 64) (l - 1));
          try reflexivity; lia.
  - exists (BITMAP_LAST_WORD_MASK n). split.
    + rewrite Hld. destruct (Z.ltb_spec (l - 1) (l - 1)); [lia|].
      rewrite andb_false_r, Z.eqb_refl. reflexivity.
    + intros j Hj Hpad. rewrite last_mask_bit by lia.
      apply orb_false_iff. split; [apply Z.eqb_neq | apply Z.ltb_ge];
        Z.div_mod_to_equations; lia.
Qed.

Lemma bitmap_fill_content_and_padding_witness :
  exists bitmap',
    bitmap_fill [5; 9] 65 = Some bitmap' /\
    (forall i, 0 <= i < 65 -> test_bit i bitmap' = Some true) /\
    exists last,
      load bitmap' (BITS_TO_LONGS 65 - 1) = Some last /\
      forall j, 0 <= j < BITS_PER_LONG ->
                65 <= BITS_PER_LONG * (BITS_TO_LONGS 65 - 1) + j ->
                Z.testbit last j = false.
Proof.
  apply (bitmap_fill_content_and_padding [5; 9] 65); closed_side.
Defined.

(** Beyond [MAX_BITS] the sizing macro wraps around to 0 words, and
    [bitmap_zero] clears nothing. *)
Lemma bitmap_zero_beyond_MAX_BITS (bitmap : list Z) n :
  MAX_BITS < n <= SIZE_MAX -> bitmap_zero bitmap n = Some bitmap.
Proof.
  intros Hn. unfold bitmap_zero.
  assert (Hl : BITS_TO_LONGS n = 0).
  { unfold BITS_TO_LONGS, BITOPS_DIV_CEIL. machine. rewrite Zminus_mod_idemp_l.
    replace (n + 64 - 1) with (n + 63 - 18446744073709551616
                               + 1 * 18446744073709551616) by lia.
    rewrite Z.mod_add, Z.mod_small by lia. apply Z.div_small. lia. }
  rewrite Hl. unfold memset. change (wrap (0 * SIZEOF_LONG) / SIZEOF_LONG) with 0.
  destruct (Z.leb_spec 0 (Z.of_nat (length bitmap))); [reflexivity | lia].
Qed.

(** C8 (as stated, refuted).  For [n = SIZE_MAX] the macro sizes the
    storage to 0 words: [bitmap_zero] leaves a word that is there as it is
    and the scan then finds its set bit; on the storage of 0 words the scan
    reads [bitmap[0]] outside of it. *)
Lemma bitmap_zero_at_SIZE_MAX :
  1 <= SIZE_MAX /\
  bitmap_zero [1] SIZE_MAX = Some [1] /\
  find_next_bit [1] SIZE_MAX 0 = Some 0 /\
  Z.of_nat (length (@nil Z)) = BITS_TO_LONGS SIZE_MAX /\
  bitmap_zero [] SIZE_MAX = Some [] /\
  find_next_bit [] SIZE_MAX 0 = None.
Proof.
  split; [vm_compute; discriminate|]. repeat split.
Qed.

(** C8 (amended).  After [bitmap_zero B n], for [1 <= n <= MAX_BITS] (the
    range in which the sizing macro does not wrap around), each of the
    [BITS_TO_LONGS n] words is 0, padding included (so a storage of exactly
    that many words is all zeros), and [find_next_bit] from 0 returns
    [n]. *)
Theorem bitmap_zero_then_scan (bitmap : list Z) n :
  is_bitmap bitmap ->
  BITS_TO_LONGS n <= Z.of_nat (length bitmap) ->
  1 <= n <= MAX_BITS ->
  exists bitmap',
    bitmap_zero bitmap n = Some bitmap' /\
    (forall k, 0 <= k < BITS_TO_LONGS n -> load bitmap' k = Some 0) /\
    (Z.of_nat (length bitmap) = BITS_TO_LONGS n ->
     bitmap' = replicate (length bitmap) 0) /\
    find_next_bit bitmap' n 0 = Some n.
Proof.
  intros HB Hlen Hn. pose proof (BITS_TO_LONGS_bounds n Hn) as Hl.
  destruct (bitmap_zero_spec bitmap n ltac:(lia) Hlen) as (b' & Hrun & Hlen' & Hld).
  set (l := BITS_TO_LONGS n) in *.
  assert (Hzero : forall k, 0 <= k < l -> load b' k = Some 0).
  { intros k Hk. rewrite Hld.
    destruct (Z.leb_spec 0 k), (Z.ltb_spec k l); try reflexivity; lia. }
  exists b'. split; [exact Hrun|]. split; [exact Hzero|]. split.
  - intros Hexact. apply list_eq. intros i.
    destruct (Nat.lt_ge_cases i (length bitmap)) as [Hi|Hi].
    + rewrite lookup_replicate_2 by exact Hi.
      rewrite <- load_lookup. apply Hzero. lia.
    + rewrite !lookup_ge_None_2; [reflexivity | rewrite length_replicate; lia | lia].
  - assert (HB' : is_bitmap b').
    { apply is_bitmap_load. intros i w. rewrite Hld.
      destruct ((0 <=? i) && (i <? l)).
      - intros [= <-]. machine. lia.
      - apply load_is_word, HB. }
    assert (Hh : holds b' n) by (unfold holds; rewrite Hlen'; machine; lia).
    destruct (find_next_bit_scanned b' n 0 HB' Hh ltac:(lia) ltac:(machine; lia))
      as (r & Hscan & [(Hr & Hv & _) | (-> & _)]); [|exact Hscan].
    exfalso. pose proof (scan_limit_le n 0) as Hlim.
    rewrite (test_bit_load b' r 0) in Hv.
    + rewrite Z.bits_0 in Hv. discriminate.
    + apply Hzero. change BITS_PER_LONG with 64. Z.div_mod_to_equations; lia.
Qed.

Lemma bitmap_zero_then_scan_witness :
  exists bitmap',
    bitmap_zero [5; 9] 65 = Some bitmap' /\
    (forall k, 0 <= k < BITS_TO_LONGS 65 -> load bitmap' k = Some 0) /\
    (Z.of_nat (length [5; 9]) = BITS_TO_LONGS 65 ->
     bitmap' = replicate (length [5; 9]) 0) /\
    find_next_bit bitmap' 65 0 = Some 65.
Proof.
  apply (bitmap_zero_then_scan [5; 9] 65); closed_side.
Defined.

(** When the sizing macro yields no word, the one store of [bitmap_fill]
    goes to [bitmap[l - 1]] with [l - 1] wrapped around to [SIZE_MAX]. *)
Lemma bitmap_fill_no_words (bitmap : list Z) bits :
  BITS_TO_LONGS bits = 0 ->
  bitmap_fill bitmap bits = store bitmap SIZE_MAX (BITMAP_LAST_WORD_MASK bits).
Proof.
  intros Hl. unfold bitmap_fill. rewrite Hl. reflexivity.
Qed.

(** C9 (as stated, refuted).  For [bits = 0] and for [bits = SIZE_MAX]
    the sizing macro yields 0 words, and [bitmap_fill] stores to
    [bitmap[SIZE_MAX]]: a write that is not among the first
    [BITS_TO_LONGS bits] words, and that is outside of the storage. *)
Lemma bitmap_fill_stores_outside :
  BITS_TO_LONGS 0 = 0 /\
  bitmap_fill [5; 9] 0 = store [5; 9] SIZE_MAX (BITMAP_LAST_WORD_MASK 0) /\
  bitmap_fill [5; 9] 0 = None /\
  BITS_TO_LONGS SIZE_MAX = 0 /\
  bitmap_fill [5; 9] SIZE_MAX
  = store [5; 9] SIZE_MAX (BITMAP_LAST_WORD_MASK SIZE_MAX) /\
  bitmap_fill [5; 9] SIZE_MAX = None.
Proof.
  repeat split.
Qed.

(** C9 (amended).  For a bit count of the size type and a storage that has
    the [BITS_TO_LONGS bits] words, [bitmap_zero] writes the first
    [BITS_TO_LONGS bits] words only, and so does [bitmap_fill] for
    [1 <= bits <= MAX_BITS], the range in which the macro yields at least
    one word: the storage keeps its length and every word at an index from
    [BITS_TO_LONGS bits] on is left as it was. *)
Theorem initialisers_frame (bitmap : list Z) bits :
  0 <= bits <= SIZE_MAX ->
  BITS_TO_LONGS bits <= Z.of_nat (length bitmap) ->
  (exists zeroed,
     bitmap_zero bitmap bits = Some zeroed /\
     length zeroed = length bitmap /\
     forall k, BITS_TO_LONGS bits <= k -> load zeroed k = load bitmap k) /\
  (1 <= bits <= MAX_BITS ->
   exists filled,
     bitmap_fill bitmap bits = Some filled /\
     length filled = length bitmap /\
     forall k, BITS_TO_LONGS bits <= k -> load filled k = load bitmap k).
Proof.
  intros Hb Hl. split.
  - destruct (bitmap_zero_spec bitmap bits ltac:(lia) Hl) as (bz & Hz & Hlenz & Hldz).
    exists bz. split; [exact Hz|]. split; [exact Hlenz|].
    intros k Hk. rewrite Hldz.
    destruct (Z.ltb_spec k (BITS_TO_LONGS bits)); [lia|].
    now rewrite andb_false_r.
  - intros Hrange. pose proof (BITS_TO_LONGS_bounds bits Hrange) as Hone.
    destruct (bitmap_fill_spec bitmap bits ltac:(lia) ltac:(lia))
      as (bf & Hf & Hlenf & Hldf).
    exists bf. split; [exact Hf|]. split; [exact Hlenf|].
    intros k Hk. rewrite Hldf.
    destruct (Z.ltb_spec k (BITS_TO_LONGS bits - 1)); [lia|].
    destruct (Z.eqb_spec k (BITS_TO_LONGS bits - 1)); [lia|].
    now rewrite andb_false_r.
Qed.

Lemma initialisers_frame_witness :
  (exists zeroed,
     bitmap_zero [5; 9; 11] 65 = Some zeroed /\
     length zeroed = length [5; 9; 11] /\
     forall k, BITS_TO_LONGS 65 <= k -> load zeroed k = load [5; 9; 11] k) /\
  (exists filled,
     bitmap_fill [5; 9; 11] 65 = Some filled /\
     length filled = length [5; 9; 11] /\
     forall k, BITS_TO_LONGS 65 <= k -> load filled k = load [5; 9; 11] k).
Proof.
  destruct (initialisers_frame [5; 9; 11] 65) as [Hzero Hfill]; try closed_side.
  split; [exact Hzero | apply Hfill; closed_side].
Defined.

(** * Further properties of the primitives *)

(** X1.  [BITMAP_FIRST_WORD_MASK start] has exactly the bits
    [start mod W .. W - 1] set: its value is [2^W - 2^(start mod W)]. *)
Theorem BITMAP_FIRST_WORD_MASK_correct start :
  BITMAP_FIRST_WORD_MASK start = 2 ^ BITS_PER_LONG - 2 ^ (start mod BITS_PER_LONG) /\
  forall j, Z.testbit (BITMAP_FIRST_WORD_MASK start) j
            = (start mod BITS_PER_LONG <=? j) && (j <? BITS_PER_LONG).
Proof.
  pose proof (Z.mod_pos_bound start BITS_PER_LONG ltac:(machine; lia)) as Hk.
  split.
  - unfold BITMAP_FIRST_WORD_MASK, wrap. rewrite Z.shiftl_mul_pow2 by lia.
    set (k := start mod BITS_PER_LONG) in *.
    assert (Hp : 1 <= 2 ^ k <= 2 ^ BITS_PER_LONG).
    { split.
      - replace 1 with (2 ^ 0) by reflexivity. apply Z.pow_le_mono_r; lia.
      - apply Z.pow_le_mono_r; lia. }
    symmetry. apply (Z.mod_unique _ _ (2 ^ k - 1)); [left; lia|].
    unfold ULONG_MAX. lia.
  - intros j. destruct (Z.neg_nonneg_cases j) as [Hj|Hj].
    + rewrite Z.testbit_neg_r by exact Hj.
      destruct (Z.leb_spec (start mod BITS_PER_LONG) j); [lia | reflexivity].
    + apply FIRST_WORD_MASK_bits. exact Hj.
Qed.

(** X2.  On an [unsigned long], [bitops_ffs] is zero exactly for the zero
    word; otherwise it lies in [1, W] and is one plus the index of the
    least significant set bit. *)
Theorem bitops_ffs_contract x :
  is_word x ->
  (bitops_ffs x = 0 <-> x = 0) /\
  (x <> 0 ->
   1 <= bitops_ffs x <= BITS_PER_LONG /\
   Z.testbit x (bitops_ffs x - 1) = true /\
   forall j, 0 <= j < bitops_ffs x - 1 -> Z.testbit x j = false).
Proof.
  intros Hx. unfold is_word in Hx. split.
  - split; [|intros ->; reflexivity].
    destruct x as [|p|p]; [reflexivity | | lia].
    cbn [bitops_ffs]. pose proof (ctz_pos_spec p) as (Hc & _). lia.
  - intros Hne. destruct (bitops_ffs_spec x ltac:(lia)) as (Hp & Hset & Hlow).
    split; [|split; assumption].
    split; [lia|]. change BITS_PER_LONG with 64.
    destruct (Z.le_gt_cases (bitops_ffs x) 64) as [|Hbig]; [assumption|].
    rewrite (word_bits_high x (bitops_ffs x - 1) Hx ltac:(lia)) in Hset.
    discriminate.
Qed.

Lemma bitops_ffs_contract_witness :
  (bitops_ffs 40 = 0 <-> 40 = 0) /\
  (40 <> 0 ->
   1 <= bitops_ffs 40 <= BITS_PER_LONG /\
   Z.testbit 40 (bitops_ffs 40 - 1) = true /\
   forall j, 0 <= j < bitops_ffs 40 - 1 -> Z.testbit 40 j = false).
Proof.
  apply (bitops_ffs_contract 40). unfold is_word. closed_side.
Defined.

(** X3.  [test_bit] is bounded by the storage, not by a bit count: for an
    index [i >= 0] it is undefined exactly when [i] lies at or past
    [W * length], and otherwise it is bit [i mod W] of word [i / W]. *)
Theorem test_bit_bounds (bitmap : list Z) i :
  0 <= i ->
  (test_bit i bitmap = None <-> BITS_PER_LONG * Z.of_nat (length bitmap) <= i) /\
  (forall w, bitmap !! Z.to_nat (i / BITS_PER_LONG) = Some w ->
             test_bit i bitmap = Some (Z.testbit w (i mod BITS_PER_LONG))).
Proof.
  intros Hi. split.
  - destruct (Z.le_gt_cases (BITS_PER_LONG * Z.of_nat (length bitmap)) i) as [Hout|Hin].
    + split; [intros _; exact Hout|]. intros _. unfold test_bit, load.
      destruct (Z.ltb_spec (i / BITS_PER_LONG) (Z.of_nat (length bitmap))) as [Hlt|Hge].
      * exfalso. change BITS_PER_LONG with 64 in *. Z.div_mod_to_equations; lia.
      * now rewrite andb_false_r.
    + destruct (load_Some bitmap (i / BITS_PER_LONG)) as [w Hw].
      { change BITS_PER_LONG with 64 in *. Z.div_mod_to_equations; lia. }
      rewrite (test_bit_load bitmap i w Hw). split; [discriminate | lia].
  - intros w Hw. apply test_bit_load. unfold load.
    assert (Hlt : (Z.to_nat (i / BITS_PER_LONG) < length bitmap)%nat)
      by (apply lookup_lt_is_Some; eauto).
    assert (Hq : 0 <= i / BITS_PER_LONG) by (apply Z.div_pos; machine; lia).
    destruct (Z.leb_spec 0 (i / BITS_PER_LONG)); [|lia].
    destruct (Z.ltb_spec (i / BITS_PER_LONG) (Z.of_nat (length bitmap))); [|lia].
    exact Hw.
Qed.

Lemma test_bit_bounds_witness :
  (test_bit 66 [0; 4] = None <-> BITS_PER_LONG * Z.of_nat (length [0; 4]) <= 66) /\
  (forall w, [0; 4] !! Z.to_nat (66 / BITS_PER_LONG) = Some w ->
             test_bit 66 [0; 4] = Some (Z.testbit w (66 mod BITS_PER_LONG))).
Proof.
  apply (test_bit_bounds [0; 4] 66). closed_side.
Defined.

(** X4.  The reference scanner [find_next] returns the smallest index in
    [start, bits) whose bit is set, or [bits], for every bit count of the
    size type that the storage has room for. *)
Theorem find_next_first_set (bitmap : list Z) bits start :
  holds bitmap bits -> 0 <= start -> bits <= SIZE_MAX ->
  exists r, find_next bitmap bits start = Some r /\
            next_match true bitmap bits start r.
Proof.
  intros Hh Hs Hbits. exact (find_next_spec bitmap bits start Hh Hs Hbits).
Qed.

Lemma find_next_first_set_witness :
  exists r, find_next [0; 1] 100 3 = Some r /\
            next_match true [0; 1] 100 3 r.
Proof.
  apply (find_next_first_set [0; 1] 100 3); closed_side.
Defined.

(** X5.  The clear-bit scanner is the set-bit scanner run on the
    word-inverted storage, where every bit the storage can hold reads
    negated; inverting twice gives the storage back. *)
Theorem find_next_zero_bit_as_complement (bitmap : list Z) bits start :
  is_bitmap bitmap ->
  find_next_zero_bit bitmap bits start = find_next_bit (complement bitmap) bits start /\
  (forall i, test_bit i (complement bitmap) = negb <$> test_bit i bitmap) /\
  complement (complement bitmap) = bitmap.
Proof.
  intros HB. split; [now apply find_next_zero_bit_complement|].
  split; [intros i; apply test_bit_complement|].
  unfold complement. rewrite <- list_fmap_compose.
  rewrite <- (list_fmap_id bitmap) at 2. apply Forall_fmap_ext_1.
  eapply Forall_impl; [exact HB|]. intros w Hw. cbn.
  rewrite Z.lxor_assoc, Z.lxor_nilpotent, Z.lxor_0_r. reflexivity.
Qed.

Lemma find_next_zero_bit_as_complement_witness :
  find_next_zero_bit [7; 5] 100 1 = find_next_bit (complement [7; 5]) 100 1 /\
  (forall i, test_bit i (complement [7; 5]) = negb <$> test_bit i [7; 5]) /\
  complement (complement [7; 5]) = [7; 5].
Proof.
  apply (find_next_zero_bit_as_complement [7; 5] 100 1). closed_side.
Defined.

(** * Scans of a uniform range *)

Lemma scanned_at_match v (bitmap : list Z) bits limit s r :
  s < limit -> test_bit s bitmap = Some v ->
  scanned v bitmap bits limit s r -> r = s.
Proof.
  intros Hs Hv Hsc.
  assert (Hne : Some v <> Some (negb v)) by (destruct v; discriminate).
  destruct Hsc as [(Hr & _ & Hlow) | (_ & Hnone)].
  - destruct (Z.eq_dec r s) as [|Hd]; [assumption|].
    rewrite (Hlow s ltac:(lia)) in Hv. congruence.
  - rewrite (Hnone s ltac:(lia)) in Hv. congruence.
Qed.

Lemma scanned_no_match v (bitmap : list Z) bits limit s r :
  (forall i, s <= i < limit -> test_bit i bitmap = Some (negb v)) ->
  scanned v bitmap bits limit s r -> r = bits.
Proof.
  intros Hall Hsc.
  assert (Hne : Some v <> Some (negb v)) by (destruct v; discriminate).
  destruct Hsc as [(Hr & Hv & _) | (Hr & _)]; [|exact Hr].
  rewrite (Hall r ltac:(lia)) in Hv. congruence.
Qed.

(** On a range all of whose bits read [v], the scan for [v] returns its
    start and the scan for the other value returns [bits]. *)
Lemma scan_uniform (v : bool) (bitmap : list Z) bits s :
  is_bitmap bitmap -> holds bitmap bits -> 0 <= s < bits -> bits <= MAX_BITS ->
  (forall i, 0 <= i < bits -> test_bit i bitmap = Some v) ->
  (if v then find_next_bit else find_next_zero_bit) bitmap bits s = Some s /\
  (if v then find_next_zero_bit else find_next_bit) bitmap bits s = Some bits.
Proof.
  intros HB Hh Hs Hbits Hall.
  assert (Hmax : bits <= SIZE_MAX) by (machine; lia).
  destruct (find_next_bit_scanned bitmap bits s HB Hh ltac:(lia) Hmax)
    as (r1 & Hrun1 & Hsc1).
  destruct (find_next_zero_bit_scanned bitmap bits s HB Hh ltac:(lia) Hmax)
    as (r0 & Hrun0 & Hsc0).
  rewrite scan_limit_full in Hsc1, Hsc0 by lia.
  destruct v.
  - rewrite Hrun1, Hrun0. split; f_equal.
    + apply (scanned_at_match true bitmap bits bits s r1); [lia | apply Hall; lia | exact Hsc1].
    + apply (scanned_no_match false bitmap bits bits s r0); [|exact Hsc0].
      intros i Hi. apply Hall. lia.
  - rewrite Hrun1, Hrun0. split; f_equal.
    + apply (scanned_at_match false bitmap bits bits s r0); [lia | apply Hall; lia | exact Hsc0].
    + apply (scanned_no_match true bitmap bits bits s r1); [|exact Hsc1].
      intros i Hi. apply Hall. lia.
Qed.

Lemma LAST_WORD_MASK_is_word bits : is_word (BITMAP_LAST_WORD_MASK bits).
Proof.
  unfold BITMAP_LAST_WORD_MASK.
  pose proof (Z.mod_pos_bound (wrap (- bits)) BITS_PER_LONG ltac:(machine; lia)) as Hk.
  set (k := wrap (- bits) mod BITS_PER_LONG) in *.
  rewrite Z.shiftr_div_pow2 by lia.
  assert (Hp : 0 < 2 ^ k) by (apply Z.pow_pos_nonneg; lia).
  assert (Hlo : 0 <= ULONG_MAX / 2 ^ k) by (apply Z.div_pos; [machine; lia | exact Hp]).
  assert (Hhi : ULONG_MAX / 2 ^ k <= ULONG_MAX / 1)
    by (apply Z.div_le_compat_l; [machine; lia | lia]).
  rewrite Z.div_1_r in Hhi. machine. lia.
Qed.

(** What [bitmap_fill] leaves behind, on a storage it fits. *)
Lemma bitmap_fill_facts (bitmap : list Z) n :
  BITS_TO_LONGS n <= Z.of_nat (length bitmap) -> 1 <= n <= MAX_BITS ->
  exists bitmap',
    bitmap_fill bitmap n = Some bitmap' /\
    length bitmap' = length bitmap /\
    (is_bitmap bitmap -> is_bitmap bitmap') /\
    forall i, 0 <= i < n -> test_bit i bitmap' = Some true.
Proof.
  intros Hlen Hn. pose proof (BITS_TO_LONGS_bounds n Hn) as Hl.
  destruct (bitmap_fill_spec bitmap n ltac:(lia) ltac:(lia))
    as (b' & Hrun & Hlen' & Hld).
  set (l := BITS_TO_LONGS n) in *.
  exists b'. split; [exact Hrun|]. split; [exact Hlen'|]. split.
  - intros HB. apply is_bitmap_load. intros k w. rewrite Hld.
    destruct ((0 <=? k) && (k <? l - 1)); [intros [= <-]; machine; lia|].
    destruct (k =? l - 1); [intros [= <-]; apply LAST_WORD_MASK_is_word|].
    apply load_is_word, HB.
  - intros i Hi.
    assert (Hk : 0 <= i / 64 <= l - 1) by (Z.div_mod_to_equations; lia).
    assert (Hj : 0 <= i mod 64 < 64) by (apply Z.mod_pos_bound; lia).
    destruct (Z.eq_dec (i / 64) (l - 1)) as [E|E].
    + rewrite (test_bit_load b' i (BITMAP_LAST_WORD_MASK n)).
      * change BITS_PER_LONG with 64. f_equal. rewrite last_mask_bit by lia.
        apply orb_true_iff.
        destruct (Z.eq_dec (n mod 64) 0) as [E0|E0];
          [left; now apply Z.eqb_eq | right; apply Z.ltb_lt].
        Z.div_mod_to_equations; lia.
      * change BITS_PER_LONG with 64. rewrite Hld, E.
        destruct (Z.ltb_spec (l - 1) (l - 1)); [lia|].
        rewrite andb_false_r, Z.eqb_refl. reflexivity.
    + rewrite (test_bit_load b' i ULONG_MAX).
      * change BITS_PER_LONG with 64. f_equal. rewrite ULONG_MAX_bits.
        destruct (Z.leb_spec 0 (i mod 64)), (Z.ltb_spec (i mod 64) 64);
          try reflexivity; lia.
      * change BITS_PER_LONG with 64. rewrite Hld.
        destruct (Z.leb_spec 0 (i / 64)), (Z.ltb_spec (i / 64) (l - 1));
          try reflexivity; lia.
Qed.

(** What [bitmap_zero] leaves behind, on a storage it fits. *)
Lemma bitmap_zero_facts (bitmap : list Z) n :
  BITS_TO_LONGS n <= Z.of_nat (length bitmap) -> 1 <= n <= MAX_BITS ->
  exists bitmap',
    bitmap_zero bitmap n = Some bitmap' /\
    length bitmap' = length bitmap /\
    (is_bitmap bitmap -> is_bitmap bitmap') /\
    forall i, 0 <= i < n -> test_bit i bitmap' = Some false.
Proof.
  intros Hlen Hn. pose proof (BITS_TO_LONGS_bounds n Hn) as Hl.
  destruct (bitmap_zero_spec bitmap n ltac:(lia) Hlen) as (b' & Hrun & Hlen' & Hld).
  set (l := BITS_TO_LONGS n) in *.
  exists b'. split; [exact Hrun|]. split; [exact Hlen'|]. split.
  - intros HB. apply is_bitmap_load. intros k w. rewrite Hld.
    destruct ((0 <=? k) && (k <? l)); [intros [= <-]; machine; lia|].
    apply load_is_word, HB.
  - intros i Hi. rewrite (test_bit_load b' i 0); [now rewrite Z.bits_0|].
    change BITS_PER_LONG with 64. rewrite Hld.
    destruct (Z.leb_spec 0 (i / 64)), (Z.ltb_spec (i / 64) l);
      try reflexivity; Z.div_mod_to_equations; lia.
Qed.

(** X6.  After [bitmap_fill B n] every start [s < n] is its own next set
    bit, and the clear-bit scan from [s] returns [n]: the zeroed padding of
    the last word is not reported as clear content. *)
Theorem filled_bitmap_scans (bitmap : list Z) n s :
  is_bitmap bitmap ->
  BITS_TO_LONGS n <= Z.of_nat (length bitmap) ->
  1 <= n <= MAX_BITS ->
  0 <= s < n ->
  exists bitmap',
    bitmap_fill bitmap n = Some bitmap' /\
    find_next_bit bitmap' n s = Some s /\
    find_next_zero_bit bitmap' n s = Some n.
Proof.
  intros HB Hlen Hn Hs.
  destruct (bitmap_fill_facts bitmap n Hlen Hn) as (b' & Hrun & Hlen' & HB' & Hall).
  exists b'. split; [exact Hrun|].
  apply (scan_uniform true b' n s); try assumption; try lia.
  - now apply HB'.
  - apply holds_BITS_TO_LONGS; [exact Hn | rewrite Hlen'; exact Hlen].
Qed.

Lemma filled_bitmap_scans_witness :
  exists bitmap',
    bitmap_fill [5; 9] 70 = Some bitmap' /\
    find_next_bit bitmap' 70 66 = Some 66 /\
    find_next_zero_bit bitmap' 70 66 = Some 70.
Proof.
  apply (filled_bitmap_scans [5; 9] 70 66); closed_side.
Defined.

(** X7.  After [bitmap_zero B n] the set-bit scan from any start [s < n]
    returns [n] and every such start is its own next clear bit. *)
Theorem zeroed_bitmap_scans (bitmap : list Z) n s :
  is_bitmap bitmap ->
  BITS_TO_LONGS n <= Z.of_nat (length bitmap) ->
  1 <= n <= MAX_BITS ->
  0 <= s < n ->
  exists bitmap',
    bitmap_zero bitmap n = Some bitmap' /\
    find_next_bit bitmap' n s = Some n /\
    find_next_zero_bit bitmap' n s = Some s.
Proof.
  intros HB Hlen Hn Hs.
  destruct (bitmap_zero_facts bitmap n Hlen Hn) as (b' & Hrun & Hlen' & HB' & Hall).
  exists b'. split; [exact Hrun|].
  destruct (scan_uniform false b' n s) as [Hclear Hset]; try assumption; try lia.
  - now apply HB'.
  - apply holds_BITS_TO_LONGS; [exact Hn | rewrite Hlen'; exact Hlen].
  - split; assumption.
Qed.

Lemma zeroed_bitmap_scans_witness :
  exists bitmap',
    bitmap_zero [5; 9] 70 = Some bitmap' /\
    find_next_bit bitmap' 70 66 = Some 70 /\
    find_next_zero_bit bitmap' 70 66 = Some 66.
Proof.
  apply (zeroed_bitmap_scans [5; 9] 70 66); closed_side.
Defined.

(** * How the initialisers compose *)

Lemma bitmap_eq_load (b1 b2 : list Z) :
  length b1 = length b2 -> (forall k, load b1 k = load b2 k) -> b1 = b2.
Proof.
  intros Hlen Hld. apply list_eq. intros i.
  rewrite <- !load_lookup. apply Hld.
Qed.

(** X8.  Each initialiser overwrites all of the first [BITS_TO_LONGS bits]
    words, so what was there before does not matter: filling or zeroing
    twice is the same as once, filling after zeroing is filling, and zeroing
    after filling is zeroing. *)
Theorem initialisers_overwrite (bitmap : list Z) bits :
  0 <= bits ->
  1 <= BITS_TO_LONGS bits <= Z.of_nat (length bitmap) ->
  exists filled zeroed,
    bitmap_fill bitmap bits = Some filled /\
    bitmap_zero bitmap bits = Some zeroed /\
    bitmap_fill filled bits = Some filled /\
    bitmap_zero zeroed bits = Some zeroed /\
    bitmap_fill zeroed bits = Some filled /\
    bitmap_zero filled bits = Some zeroed.
Proof.
  intros Hb Hl.
  destruct (bitmap_fill_spec bitmap bits Hb Hl) as (bf & Hf & Hlenf & Hldf).
  destruct (bitmap_zero_spec bitmap bits Hb ltac:(lia)) as (bz & Hz & Hlenz & Hldz).
  destruct (bitmap_fill_spec bf bits Hb ltac:(lia)) as (bff & Hff & Hlenff & Hldff).
  destruct (bitmap_zero_spec bz bits Hb ltac:(lia)) as (bzz & Hzz & Hlenzz & Hldzz).
  destruct (bitmap_fill_spec bz bits Hb ltac:(lia)) as (bzf & Hzf & Hlenzf & Hldzf).
  destruct (bitmap_zero_spec bf bits Hb ltac:(lia)) as (bfz & Hfz & Hlenfz & Hldfz).
  assert (Eff : bff = bf).
  { apply bitmap_eq_load; [congruence|]. intros k. rewrite Hldff, Hldf.
    destruct ((0 <=? k) && (k <? BITS_TO_LONGS bits - 1)); [reflexivity|].
    destruct (k =? BITS_TO_LONGS bits - 1); reflexivity. }
  assert (Ezz : bzz = bz).
  { apply bitmap_eq_load; [congruence|]. intros k. rewrite Hldzz, Hldz.
    destruct ((0 <=? k) && (k <? BITS_TO_LONGS bits)); reflexivity. }
  assert (Ezf : bzf = bf).
  { apply bitmap_eq_load; [congruence|]. intros k. rewrite Hldzf, Hldf, Hldz.
    destruct (Z.leb_spec 0 k), (Z.ltb_spec k (BITS_TO_LONGS bits - 1)),
      (Z.eqb_spec k (BITS_TO_LONGS bits - 1)), (Z.ltb_spec k (BITS_TO_LONGS bits));
      cbn [andb]; try reflexivity; lia. }
  assert (Efz : bfz = bz).
  { apply bitmap_eq_load; [congruence|]. intros k. rewrite Hldfz, Hldz, Hldf.
    destruct (Z.leb_spec 0 k), (Z.ltb_spec k (BITS_TO_LONGS bits - 1)),
      (Z.eqb_spec k (BITS_TO_LONGS bits - 1)), (Z.ltb_spec k (BITS_TO_LONGS bits));
      cbn [andb]; try reflexivity; lia. }
  exists bf, bz. subst. repeat split; assumption.
Qed.

Lemma initialisers_overwrite_witness :
  exists filled zeroed,
    bitmap_fill [5; 9; 11] 70 = Some filled /\
    bitmap_zero [5; 9; 11] 70 = Some zeroed /\
    bitmap_fill filled 70 = Some filled /\
    bitmap_zero zeroed 70 = Some zeroed /\
    bitmap_fill zeroed 70 = Some filled /\
    bitmap_zero filled 70 = Some zeroed.
Proof.
  apply (initialisers_overwrite [5; 9; 11] 70); closed_side.
Defined.

(** X9.  The initialisers are defined exactly when the words they write
    are there: [bitmap_fill] needs at least one word from the sizing macro
    (so it is undefined for [bits = 0], where it would store to
    [bitmap[-1]]) and all of them inside the storage; [bitmap_zero] only
    needs them inside the storage. *)
Theorem initialisers_defined (bitmap : list Z) bits :
  0 <= bits ->
  Z.of_nat (length bitmap) <= SIZE_MAX ->
  (bitmap_fill bitmap bits = None <->
   ~ (1 <= BITS_TO_LONGS bits <= Z.of_nat (length bitmap))) /\
  (bitmap_zero bitmap bits = None <->
   ~ (BITS_TO_LONGS bits <= Z.of_nat (length bitmap))).
Proof.
  intros Hb Hlen.
  pose proof (BITS_TO_LONGS_range bits Hb) as (Hl0 & _ & Hl2). split.
  - destruct (Z.le_gt_cases 1 (BITS_TO_LONGS bits)) as [H1|H1];
      [destruct (Z.le_gt_cases (BITS_TO_LONGS bits) (Z.of_nat (length bitmap))) as [H2|H2]|].
    + destruct (bitmap_fill_spec bitmap bits Hb ltac:(lia)) as (b' & -> & _).
      split; [discriminate | lia].
    + split; [lia|]. intros _. unfold bitmap_fill.
      set (l := BITS_TO_LONGS bits) in *.
      rewrite (wrap_small (l - 1)) by (machine; lia).
      assert (Hst : forall b : list Z, length b = length bitmap ->
                      store b (l - 1) (BITMAP_LAST_WORD_MASK bits) = None).
      { intros b Eb. unfold store. rewrite Eb.
        destruct (Z.ltb_spec (l - 1) (Z.of_nat (length bitmap))); [lia|].
        now rewrite andb_false_r. }
      destruct (1 <? l); [|cbn; now apply Hst].
      unfold memset.
      destruct (wrap ((l - 1) * SIZEOF_LONG) / SIZEOF_LONG <=? Z.of_nat (length bitmap))
        eqn:E; [|reflexivity].
      cbn. apply Hst. apply Z.leb_le in E.
      rewrite length_app, length_replicate, length_drop. lia.
    + split; [lia|]. intros _. unfold bitmap_fill.
      replace (BITS_TO_LONGS bits) with 0 by lia. cbn.
      unfold store. change (wrap (0 - 1)) with SIZE_MAX.
      destruct (Z.ltb_spec SIZE_MAX (Z.of_nat (length bitmap))); [lia|].
      now rewrite andb_false_r.
  - destruct (Z.le_gt_cases (BITS_TO_LONGS bits) (Z.of_nat (length bitmap))) as [H2|H2].
    + destruct (bitmap_zero_spec bitmap bits Hb H2) as (b' & -> & _).
      split; [discriminate | lia].
    + split; [lia|]. intros _. unfold bitmap_zero, memset.
      rewrite (wrap_small (BITS_TO_LONGS bits * SIZEOF_LONG)) by (machine; lia).
      rewrite Z.div_mul by (machine; lia).
      destruct (Z.leb_spec (BITS_TO_LONGS bits) (Z.of_nat (length bitmap)));
        [lia | reflexivity].
Qed.

Lemma initialisers_defined_witness :
  (bitmap_fill [5] 0 = None <->
   ~ (1 <= BITS_TO_LONGS 0 <= Z.of_nat (length [5]))) /\
  (bitmap_zero [5] 0 = None <->
   ~ (BITS_TO_LONGS 0 <= Z.of_nat (length [5]))).
Proof.
  apply (initialisers_defined [5] 0); closed_side.
Defined.

(** * Scans against the start position and against padding *)

Lemma next_match_mono v (bitmap : list Z) bits s s' r r' :
  s <= s' ->
  next_match v bitmap bits s r -> next_match v bitmap bits s' r' ->
  r <= r' /\ (s' <= r -> r' = r).
Proof.
  intros Hs Hm Hm'.
  assert (Hne : Some v <> Some (negb v)) by (destruct v; discriminate).
  destruct Hm as [(Hr & Hv & Hlow) | (-> & Hnone)],
    Hm' as [(Hr' & Hv' & Hlow') | (-> & Hnone')].
  - assert (Hle : r <= r').
    { destruct (Z.le_gt_cases r r') as [|Hgt]; [assumption|].
      rewrite (Hlow r' ltac:(lia)) in Hv'. congruence. }
    split; [exact Hle|]. intros Hin.
    destruct (Z.eq_dec r' r) as [|Hd]; [assumption|].
    rewrite (Hlow' r ltac:(lia)) in Hv. congruence.
  - split; [lia|]. intros Hin. rewrite (Hnone' r ltac:(lia)) in Hv. congruence.
  - rewrite (Hnone r' ltac:(lia)) in Hv'. congruence.
  - split; [lia | reflexivity].
Qed.

Lemma next_match_ext v (b1 b2 : list Z) bits s r :
  0 <= s ->
  (forall i, 0 <= i < bits -> test_bit i b1 = test_bit i b2) ->
  next_match v b1 bits s r -> next_match v b2 bits s r.
Proof.
  intros Hs Hext [(Hr & Hv & Hlow) | (Hr & Hnone)]; [left | right].
  - split; [exact Hr|]. split; [rewrite <- Hext by lia; exact Hv|].
    intros i Hi. rewrite <- Hext by lia. now apply Hlow.
  - split; [exact Hr|]. intros i Hi. rewrite <- Hext by lia. now apply Hnone.
Qed.

(** Both scanners meet the bit-by-bit contract, for bit counts the sizing
    macro supports. *)
Lemma scanners_next_match (bitmap : list Z) bits s :
  is_bitmap bitmap -> holds bitmap bits -> 0 <= s -> 0 <= bits <= MAX_BITS ->
  exists r1 r0,
    find_next_bit bitmap bits s = Some r1 /\ next_match true bitmap bits s r1 /\
    find_next_zero_bit bitmap bits s = Some r0 /\ next_match false bitmap bits s r0.
Proof.
  intros HB Hh Hs Hbits.
  assert (Hmax : bits <= SIZE_MAX) by (machine; lia).
  destruct (find_next_bit_scanned bitmap bits s HB Hh Hs Hmax) as (r1 & Hrun1 & Hsc1).
  destruct (find_next_zero_bit_scanned bitmap bits s HB Hh Hs Hmax) as (r0 & Hrun0 & Hsc0).
  rewrite scan_limit_full in Hsc1, Hsc0 by lia.
  exists r1, r0. repeat split; assumption.
Qed.

(** X10.  For [1 <= bits <= MAX_BITS], on a storage that has the
    [BITS_TO_LONGS bits] words, the scanners are monotone in the start
    position, and a start anywhere between an earlier start and its result
    leads to the same result: with [s <= s'], the result from [s] is at
    most the result from [s'], and the two are equal when [s'] does not
    pass the result from [s].  (Past [MAX_BITS] only the word of the start
    is scanned and a later start can give a smaller result.) *)
Theorem scan_monotone_in_start (bitmap : list Z) bits s s' :
  is_bitmap bitmap ->
  BITS_TO_LONGS bits <= Z.of_nat (length bitmap) ->
  1 <= bits <= MAX_BITS ->
  0 <= s <= s' ->
  exists r1 r1' r0 r0',
    find_next_bit bitmap bits s = Some r1 /\
    find_next_bit bitmap bits s' = Some r1' /\
    find_next_zero_bit bitmap bits s = Some r0 /\
    find_next_zero_bit bitmap bits s' = Some r0' /\
    r1 <= r1' /\ (s' <= r1 -> r1' = r1) /\
    r0 <= r0' /\ (s' <= r0 -> r0' = r0).
Proof.
  intros HB Hlen Hbits Hs.
  pose proof (holds_BITS_TO_LONGS bitmap bits Hbits Hlen) as Hh.
  destruct (scanners_next_match bitmap bits s HB Hh ltac:(lia) ltac:(lia))
    as (r1 & r0 & Hrun1 & Hm1 & Hrun0 & Hm0).
  destruct (scanners_next_match bitmap bits s' HB Hh ltac:(lia) ltac:(lia))
    as (r1' & r0' & Hrun1' & Hm1' & Hrun0' & Hm0').
  destruct (next_match_mono true bitmap bits s s' r1 r1' ltac:(lia) Hm1 Hm1')
    as [Hle1 Heq1].
  destruct (next_match_mono false bitmap bits s s' r0 r0' ltac:(lia) Hm0 Hm0')
    as [Hle0 Heq0].
  exists r1, r1', r0, r0'. repeat split; assumption.
Qed.

Lemma scan_monotone_in_start_witness :
  exists r1 r1' r0 r0',
    find_next_bit [48; 5] 100 1 = Some r1 /\
    find_next_bit [48; 5] 100 3 = Some r1' /\
    find_next_zero_bit [48; 5] 100 1 = Some r0 /\
    find_next_zero_bit [48; 5] 100 3 = Some r0' /\
    r1 <= r1' /\ (3 <= r1 -> r1' = r1) /\
    r0 <= r0' /\ (3 <= r0 -> r0' = r0).
Proof.
  apply (scan_monotone_in_start [48; 5] 100 1 3); closed_side.
Defined.

(** Past [MAX_BITS] a later start can find what an earlier one missed. *)
Example scan_not_monotone_past_MAX_BITS :
  find_next_bit [0; 1] SIZE_MAX 3 = Some SIZE_MAX /\
  find_next_bit [0; 1] SIZE_MAX 64 = Some 64.
Proof. split; reflexivity. Qed.

(** X11.  The scanners see the content bits only: two storages whose bits
    below [bits] read the same give the same results, whatever their
    padding bits and the words after the bitmap hold. *)
Theorem scan_ignores_padding (b1 b2 : list Z) bits s :
  is_bitmap b1 -> is_bitmap b2 ->
  BITS_TO_LONGS bits <= Z.of_nat (length b1) ->
  BITS_TO_LONGS bits <= Z.of_nat (length b2) ->
  1 <= bits <= MAX_BITS ->
  0 <= s ->
  (forall i, 0 <= i < bits -> test_bit i b1 = test_bit i b2) ->
  find_next_bit b1 bits s = find_next_bit b2 bits s /\
  find_next_zero_bit b1 bits s = find_next_zero_bit b2 bits s.
Proof.
  intros HB1 HB2 Hlen1 Hlen2 Hbits Hs Hext.
  pose proof (holds_BITS_TO_LONGS b1 bits Hbits Hlen1) as Hh1.
  pose proof (holds_BITS_TO_LONGS b2 bits Hbits Hlen2) as Hh2.
  destruct (scanners_next_match b1 bits s HB1 Hh1 Hs ltac:(lia))
    as (r1 & r0 & Hrun1 & Hm1 & Hrun0 & Hm0).
  destruct (scanners_next_match b2 bits s HB2 Hh2 Hs ltac:(lia))
    as (q1 & q0 & Hq1 & Hn1 & Hq0 & Hn0).
  rewrite Hrun1, Hrun0, Hq1, Hq0.
  apply (next_match_ext _ _ _ _ _ _ Hs Hext) in Hm1, Hm0.
  split; f_equal.
  - exact (scanned_unique _ _ _ _ _ _ _ Hm1 Hn1).
  - exact (scanned_unique _ _ _ _ _ _ _ Hm0 Hn0).
Qed.

Lemma test_bit_same_content :
  forall i, 0 <= i < 66 -> test_bit i [5; 2] = test_bit i [5; 2 + 4 + 1024; 77].
Proof.
  intros i Hi.
  destruct (Z.lt_ge_cases i 64) as [Hlo|Hhi].
  - rewrite (test_bit_load [5; 2] i 5), (test_bit_load [5; 2 + 4 + 1024; 77] i 5);
      [reflexivity | |];
      (replace (i / BITS_PER_LONG) with 0
         by (change BITS_PER_LONG with 64; Z.div_mod_to_equations; lia));
      reflexivity.
  - rewrite (test_bit_load [5; 2] i 2), (test_bit_load [5; 2 + 4 + 1024; 77] i 1030).
    + change BITS_PER_LONG with 64.
      assert (Hc : i = 64 \/ i = 65) by lia. destruct Hc as [-> | ->]; reflexivity.
    + replace (i / BITS_PER_LONG) with 1
        by (change BITS_PER_LONG with 64; Z.div_mod_to_equations; lia).
      reflexivity.
    + replace (i / BITS_PER_LONG) with 1
        by (change BITS_PER_LONG with 64; Z.div_mod_to_equations; lia).
      reflexivity.
Defined.

Lemma scan_ignores_padding_witness :
  find_next_bit [5; 2] 66 3 = find_next_bit [5; 2 + 4 + 1024; 77] 66 3 /\
  find_next_zero_bit [5; 2] 66 3 = find_next_zero_bit [5; 2 + 4 + 1024; 77] 66 3.
Proof.
  apply (scan_ignores_padding [5; 2] [5; 2 + 4 + 1024; 77] 66 3);
    try closed_side.
  exact test_bit_same_content.
Defined.

(** * The self-test: check_bits and main *)

Lemma scanners_agree (bitmap : list Z) bits s :
  is_bitmap bitmap -> holds bitmap bits -> 0 <= s -> 0 <= bits <= MAX_BITS ->
  exists r, find_next bitmap bits s = Some r /\
            find_next_bit bitmap bits s = Some r /\
            (s < bits -> s <= r <= bits).
Proof.
  intros HB Hh Hs Hbits.
  assert (Hmax : bits <= SIZE_MAX) by (machine; lia).
  destruct (scanners_next_match bitmap bits s HB Hh Hs Hbits)
    as (r & _ & Hrun & Hm & _).
  destruct (find_next_spec bitmap bits s Hh Hs Hmax) as (r' & Hrun' & Hm').
  assert (r' = r) as -> by exact (scanned_unique _ _ _ _ _ _ _ Hm' Hm).
  exists r. split; [exact Hrun'|]. split; [exact Hrun|].
  intros Hlt. destruct Hm as [(Hr & _) | (-> & _)]; lia.
Qed.

Lemma check_bits_loop_passes (bitmap : list Z) bits fuel :
  is_bitmap bitmap -> holds bitmap bits -> 0 <= bits <= MAX_BITS ->
  forall i, 0 <= i -> bits - i <= Z.of_nat fuel ->
    check_bits_loop fuel bitmap bits i = Some (Returned tt).
Proof.
  intros HB Hh Hbits. induction fuel as [|fuel IH]; intros i Hi Hfuel;
    cbn [check_bits_loop]; destruct (Z.ltb_spec i bits) as [Hlt|Hge];
    try reflexivity; [lia|].
  destruct (scanners_agree bitmap bits i HB Hh Hi Hbits) as (r & -> & -> & Hr).
  cbn. rewrite Z.eqb_refl. specialize (Hr Hlt).
  rewrite (wrap_small (r + 1)) by (machine; lia).
  apply IH; lia.
Qed.

(** X12.  [check_bits] never trips its assertion and returns: at every
    position it visits, the word-parallel scanner and the bit-by-bit
    reference agree. *)
Theorem check_bits_passes (bitmap : list Z) bits :
  is_bitmap bitmap ->
  BITS_TO_LONGS bits <= Z.of_nat (length bitmap) ->
  1 <= bits <= MAX_BITS ->
  check_bits bitmap bits = Some (Returned tt).
Proof.
  intros HB Hlen Hbits.
  pose proof (holds_BITS_TO_LONGS bitmap bits Hbits Hlen) as Hh.
  unfold check_bits. apply check_bits_loop_passes; try assumption; try lia.
  unfold holds in Hh. change (Z.to_nat BITS_PER_LONG) with 64%nat.
  change BITS_PER_LONG with 64 in Hh. lia.
Qed.

Lemma check_bits_passes_witness : check_bits [48; 5; 7] 130 = Some (Returned tt).
Proof.
  apply (check_bits_passes [48; 5; 7] 130); closed_side.
Defined.

Lemma main_loop_passes fuel :
  forall (storage : list Z) i,
    is_bitmap storage ->
    BITS_TO_LONGS MAX_TEST_BITS <= Z.of_nat (length storage) ->
    1 <= i -> MAX_TEST_BITS - i <= Z.of_nat fuel ->
    main_loop fuel storage i = Some (Returned 0).
Proof.
  induction fuel as [|fuel IH]; intros storage i HB Hlen Hi Hfuel;
    cbn [main_loop]; destruct (Z.ltb_spec i MAX_TEST_BITS) as [Hlt|Hge];
    try reflexivity; [lia|].
  assert (Hn : 1 <= i <= MAX_BITS) by (unfold MAX_TEST_BITS in Hlt; machine; lia).
  assert (Hli : BITS_TO_LONGS i <= Z.of_nat (length storage)).
  { pose proof (BITS_TO_LONGS_bounds i Hn).
    change (BITS_TO_LONGS MAX_TEST_BITS) with 7 in Hlen.
    unfold MAX_TEST_BITS in Hlt. lia. }
  destruct (bitmap_fill_facts storage i Hli Hn) as (b1 & -> & Hlen1 & HB1 & Hall1).
  cbn.
  destruct (scan_uniform true b1 i 0) as [-> _]; try assumption; try lia.
  { now apply HB1. }
  { apply holds_BITS_TO_LONGS; [exact Hn | rewrite Hlen1; exact Hli]. }
  cbn.
  destruct (bitmap_zero_facts b1 i ltac:(rewrite Hlen1; exact Hli) Hn)
    as (b2 & -> & Hlen2 & HB2 & Hall2).
  cbn.
  destruct (scan_uniform false b2 i 0) as [_ ->]; try assumption; try lia.
  { apply HB2. now apply HB1. }
  { apply holds_BITS_TO_LONGS; [exact Hn | rewrite Hlen2, Hlen1; exact Hli]. }
  cbn. rewrite Z.eqb_refl.
  apply IH; try lia. apply HB2. now apply HB1.
Qed.

(** X13.  The self-test of [main] passes whatever the static storage holds
    when it starts: from any loop counter [i >= 1], for a storage of words
    with at least [BITS_TO_LONGS MAX_TEST_BITS] of them, neither assertion
    fails in any remaining turn and 0 is returned. *)
Theorem main_loop_returns_0 (storage : list Z) i :
  is_bitmap storage ->
  BITS_TO_LONGS MAX_TEST_BITS <= Z.of_nat (length storage) ->
  1 <= i ->
  main_loop (Z.to_nat MAX_TEST_BITS) storage i = Some (Returned 0).
Proof.
  intros HB Hlen Hi. apply main_loop_passes; try assumption.
  unfold MAX_TEST_BITS. lia.
Qed.

Lemma main_loop_returns_0_witness : main = Some (Returned 0).
Proof.
  unfold main. apply (main_loop_returns_0 test 1).
  - repeat constructor; machine; lia.
  - vm_compute. discriminate.
  - vm_compute. discriminate.
Defined.

(** * Bit counts past MAX_BITS: the sizing macro has wrapped around *)

Lemma find_next_bit_loop_done fuel (bitmap : list Z) l i long_lower t :
  l <= i -> find_next_bit_loop fuel bitmap l i long_lower t = Some (long_lower, t).
Proof.
  intros Hi. destruct fuel; cbn [find_next_bit_loop];
    destruct (Z.ltb_spec i l); try lia; now rewrite andb_false_r.
Qed.

(** With no word for the loop to visit, [find_next_bit] reports the first
    set bit of the word of [start], at or after [start] and below
    [bits]. *)
Lemma find_next_bit_first_word (bitmap : list Z) bits start :
  is_bitmap bitmap -> 0 <= start < bits -> bits <= SIZE_MAX ->
  start / 64 < Z.of_nat (length bitmap) ->
  BITS_TO_LONGS bits <= start / 64 + 1 ->
  exists r, find_next_bit bitmap bits start = Some r /\
            scanned true bitmap bits (Z.min bits (64 * (start / 64 + 1))) start r.
Proof.
  intros HB Hs Hbits Hfirst Hl.
  set (bits' := Z.min bits (64 * (start / 64 + 1))).
  assert (Hb' : start < bits' <= bits /\ bits' <= 64 * (start / 64 + 1))
    by (subst bits'; Z.div_mod_to_equations; lia).
  assert (Hh' : holds bitmap bits') by (machine; lia).
  destruct (find_next_bit_scanned bitmap bits' start HB Hh' ltac:(lia) ltac:(lia))
    as (r' & Hrun' & Hsc').
  assert (Hlim : scan_limit bits' start = bits').
  { unfold scan_limit. change BITS_PER_LONG with 64. lia. }
  rewrite Hlim in Hsc'.
  pose proof (BITS_TO_LONGS_range bits' ltac:(lia)) as (_ & Hl' & _).
  assert (Hi : wrap (start / BITS_PER_LONG + 1) = start / 64 + 1).
  { change BITS_PER_LONG with 64. apply wrap_small.
    machine. Z.div_mod_to_equations; lia. }
  revert Hrun'. unfold find_next_bit.
  destruct (Z.leb_spec bits start); [lia|].
  destruct (Z.leb_spec bits' start); [lia|].
  destruct (load_Some bitmap (start / BITS_PER_LONG)) as [w Hw];
    [change BITS_PER_LONG with 64; Z.div_mod_to_equations; lia|].
  rewrite Hw. cbn. rewrite Hi.
  rewrite !find_next_bit_loop_done by lia. cbn.
  set (t := Z.land w (BITMAP_FIRST_WORD_MASK start)).
  destruct (Z.eqb_spec t 0) as [Et|Et].
  { intros [= <-]. exists bits. split; [reflexivity|]. right. split; [reflexivity|].
    destruct Hsc' as [(Hr & _) | (_ & Hnone)]; [lia | exact Hnone]. }
  assert (Ht : 0 < t).
  { assert (0 <= t); [|lia]. unfold t. apply Z.land_nonneg. right. apply wrap_is_word. }
  destruct (bitops_ffs_spec t Ht) as (Hp & Hset & _).
  assert (Hp64 : bitops_ffs t - 1 < 64).
  { set (p := bitops_ffs t - 1) in *. unfold t in Hset.
    rewrite Z.land_spec, FIRST_WORD_MASK_bits in Hset by lia.
    apply andb_true_iff in Hset as [_ Hm]. apply andb_true_iff in Hm as [_ Hm].
    now apply Z.ltb_lt in Hm. }
  replace (wrap (wrap (wrap (start - start mod BITS_PER_LONG) + bitops_ffs t) - 1))
    with (64 * (start / 64) + (bitops_ffs t - 1)).
  2:{ change BITS_PER_LONG with 64.
      rewrite (wrap_small (start - start mod 64))
        by (machine; Z.div_mod_to_equations; lia).
      unfold wrap. rewrite Zminus_mod_idemp_l. symmetry.
      replace (start - start mod 64 + bitops_ffs t - 1)
        with (64 * (start / 64) + (bitops_ffs t - 1))
        by (Z.div_mod_to_equations; lia).
      apply Z.mod_small. machine. Z.div_mod_to_equations; lia. }
  set (pos := 64 * (start / 64) + (bitops_ffs t - 1)) in *.
  destruct (Z.leb_spec bits' pos) as [Hpad'|Hin'], (Z.leb_spec bits pos) as [Hpad|Hin];
    intros [= <-]; try lia.
  - exists bits. split; [reflexivity|]. right. split; [reflexivity|].
    destruct Hsc' as [(Hr & _) | (_ & Hnone)]; [lia | exact Hnone].
  - exists pos. split; [reflexivity|].
    destruct Hsc' as [Hleft | (Hr & _)]; [left; exact Hleft | lia].
Qed.

Lemma BITS_TO_LONGS_wrapped n : MAX_BITS < n <= SIZE_MAX -> BITS_TO_LONGS n = 0.
Proof.
  intros Hn. apply (bitmap_fill_beyond_MAX_BITS [] n Hn). vm_compute. discriminate.
Qed.

(** X14.  For a bit count past [MAX_BITS], where [BITS_TO_LONGS] has
    wrapped around to 0, both scanners look at the word of [start] only:
    they return the first matching index at or after [start] inside that
    word and below [bits], or [bits], and miss whatever the later words
    hold. *)
Theorem scan_beyond_MAX_BITS_first_word (bitmap : list Z) bits start :
  is_bitmap bitmap ->
  MAX_BITS < bits <= SIZE_MAX ->
  0 <= start < bits ->
  start / BITS_PER_LONG < Z.of_nat (length bitmap) ->
  exists r1 r0,
    find_next_bit bitmap bits start = Some r1 /\
    find_next_zero_bit bitmap bits start = Some r0 /\
    scanned true bitmap bits
      (Z.min bits (BITS_PER_LONG * (start / BITS_PER_LONG + 1))) start r1 /\
    scanned false bitmap bits
      (Z.min bits (BITS_PER_LONG * (start / BITS_PER_LONG + 1))) start r0.
Proof.
  intros HB Hbits Hs Hfirst. change BITS_PER_LONG with 64 in *.
  pose proof (BITS_TO_LONGS_wrapped bits Hbits) as Hl.
  assert (Hq : 0 <= start / 64) by (Z.div_mod_to_equations; lia).
  destruct (find_next_bit_first_word bitmap bits start HB Hs ltac:(lia) Hfirst
              ltac:(lia)) as (r1 & Hrun1 & Hsc1).
  destruct (find_next_bit_first_word (complement bitmap) bits start
              (is_bitmap_complement _ HB) Hs ltac:(lia)
              ltac:(rewrite length_complement; exact Hfirst) ltac:(lia))
    as (r0 & Hrun0 & Hsc0).
  exists r1, r0. split; [exact Hrun1|].
  split; [rewrite find_next_zero_bit_complement by exact HB; exact Hrun0|].
  split; [exact Hsc1 | now apply scanned_complement].
Qed.

Lemma scan_beyond_MAX_BITS_first_word_witness :
  exists r1 r0,
    find_next_bit [0; 1] SIZE_MAX 3 = Some r1 /\
    find_next_zero_bit [0; 1] SIZE_MAX 3 = Some r0 /\
    scanned true [0; 1] SIZE_MAX
      (Z.min SIZE_MAX (BITS_PER_LONG * (3 / BITS_PER_LONG + 1))) 3 r1 /\
    scanned false [0; 1] SIZE_MAX
      (Z.min SIZE_MAX (BITS_PER_LONG * (3 / BITS_PER_LONG + 1))) 3 r0.
Proof.
  apply (scan_beyond_MAX_BITS_first_word [0; 1] SIZE_MAX 3); try closed_side.
  split; vm_compute; [reflexivity | discriminate].
Defined.

(** X15.  For a bit count past [MAX_BITS] the sizing macro yields 0
    words: [bitmap_fill] is then undefined on every storage (it stores to
    [bitmap[SIZE_MAX]]) and [bitmap_zero] clears nothing. *)
Theorem initialisers_beyond_MAX_BITS (bitmap : list Z) n :
  MAX_BITS < n <= SIZE_MAX ->
  Z.of_nat (length bitmap) <= SIZE_MAX ->
  BITS_TO_LONGS n = 0 /\
  bitmap_fill bitmap n = None /\
  bitmap_zero bitmap n = Some bitmap.
Proof.
  intros Hn Hlen.
  destruct (bitmap_fill_beyond_MAX_BITS bitmap n Hn Hlen) as [Hl Hf].
  split; [exact Hl|]. split; [exact Hf|].
  now apply bitmap_zero_beyond_MAX_BITS.
Qed.

Lemma initialisers_beyond_MAX_BITS_witness :
  BITS_TO_LONGS (MAX_BITS + 1) = 0 /\
  bitmap_fill [5; 9] (MAX_BITS + 1) = None /\
  bitmap_zero [5; 9] (MAX_BITS + 1) = Some [5; 9].
Proof.
  apply (initialisers_beyond_MAX_BITS [5; 9] (MAX_BITS + 1)); try closed_side.
  split; vm_compute; [reflexivity | discriminate].
Defined.
